(** * Lazyplex core: a shallow embedding of the execution engine

    Modules:
    - [Context]    : [ApplicationContext] and [branch] (core/context.py)
    - [Sched]      : the asyncio event loop driving the per-item tasks of
                     [Application.process_action_data] (core/application.py)
    - [App]        : [Application.action_from_args], [_run_initializer],
                     [process_action_data] and [run] (core/application.py)
    - [Actions]    : [Action.__call__] and [Action.__rshift__] (core/actions.py)
    - [LazyEngine] : [Lazy.__call__] and [Action.__get_bound_sig]
                     (core/actions.py)
    - [SpecDispatch], [Samples], [Invariants] : the spec's reading of
                     sequential dispatch, sample actions and applications,
                     and the invariants used by the proofs. *)

From Stdlib Require Import ZArith Lia.
From stdpp Require Import base gmap sets list strings.

Set Warnings "-register-all".

(* ------------------------------------------------------------------ *)
(** ** Scoped context (core/context.py) *)

Module Context.
Section Ctx.
Context {V : Type}.

(** The base [ApplicationContext] dict together with the value of the
    context variable [_branch_context] ([None] when no branch is set). *)
Record ctx := mkCtx {
  base : gmap string V;
  br : option (gmap string V)
}.

(** [ApplicationContext.__getitem__]: [None] stands for a raised
    [KeyError].  [if branch:] tests the truthiness of the dict, so an empty
    overlay falls straight through to the base. *)
Definition ctx_get (c : ctx) (k : string) : option V :=
  match br c with
  | Some b =>
      if bool_decide (b = ∅) then base c !! k
      else match b !! k with
           | Some v => Some v
           | None => base c !! k
           end
  | None => base c !! k
  end.

(** [ApplicationContext.__contains__] *)
Definition ctx_contains (c : ctx) (k : string) : bool :=
  match br c with
  | Some b => bool_decide (is_Some (b !! k)) || bool_decide (is_Some (base c !! k))
  | None => bool_decide (is_Some (base c !! k))
  end.

(** [ApplicationContext.__setitem__] *)
Definition ctx_set (c : ctx) (k : string) (v : V) : ctx :=
  match br c with
  | Some b =>
      if bool_decide (is_Some (b !! k)) || negb (bool_decide (is_Some (base c !! k)))
      then mkCtx (base c) (Some (<[k:=v]> b))
      else mkCtx (<[k:=v]> (base c)) (br c)
  | None => mkCtx (<[k:=v]> (base c)) (br c)
  end.

(** [ApplicationContext.__iter__]: the keys of
    [set((branch or {}).keys()) & set(super().keys())]. *)
Definition ctx_iter (c : ctx) : gset string :=
  match br c with
  | Some b => dom b ∩ dom (base c)
  | None => ∅
  end.

(** Context operations an item's code can perform.  [CDel] is
    [__delitem__], which deletes from the instance [__dict__] (empty for an
    [ApplicationContext]) and so raises [KeyError]; [CBranch seed body] is
    [with branch(seed): body]; [CRaise] is any other exception.  The last
    four are the mutating methods [ApplicationContext] inherits from [dict]
    without overriding them; they act on the base dict whatever the branch:
    [CUpdate u] is [ctx.update(u)] (also [ctx |= u]), [CPop k d] is
    [ctx.pop(k)] ([d = None]) or [ctx.pop(k, d)], [CPopItem k] is
    [ctx.popitem()], which removes the base entry inserted last, here [k]
    (the model's [gmap] keeps no insertion order, so the key is part of the
    operation), and [CClear] is [ctx.clear()]. *)
Inductive cop :=
| CSet (k : string) (v : V)
| CSetDefault (k : string) (v : V)
| CGet (k : string)
| CDel (k : string)
| CBranch (seed : gmap string V) (body : list cop)
| CRaise
| CUpdate (u : gmap string V)
| CPop (k : string) (d : option V)
| CPopItem (k : string)
| CClear.

(** Execution of one operation; the boolean is [false] when it raised.
    [branch] sets the context variable to the seed dict and resets it to
    the previous value in its [finally] clause, on both exits. *)
Fixpoint exec_op (o : cop) (c : ctx) : ctx * bool :=
  match o with
  | CSet k v => (ctx_set c k v, true)
  | CSetDefault k v =>
      (* if key not in self: self[key] = default; return self[key] *)
      if ctx_contains c k then (c, true) else (ctx_set c k v, true)
  | CGet k => (c, match ctx_get c k with Some _ => true | None => false end)
  | CDel _ => (c, false)
  | CBranch seed body =>
      let r := (fix go (l : list cop) (c : ctx) : ctx * bool :=
                  match l with
                  | [] => (c, true)
                  | o :: l' =>
                      let (c', ok) := exec_op o c in
                      if ok then go l' c' else (c', false)
                  end) body (mkCtx (base c) (Some seed)) in
      (mkCtx (base (fst r)) (br c), snd r)
  | CRaise => (c, false)
  | CUpdate u => (mkCtx (u ∪ base c) (br c), true)
  | CPop k d =>
      match base c !! k, d with
      | Some _, _ => (mkCtx (delete k (base c)) (br c), true)
      | None, Some _ => (c, true)
      | None, None => (c, false)          (* KeyError *)
      end
  | CPopItem k =>
      if bool_decide (base c = ∅) then (c, false)   (* KeyError: dictionary is empty *)
      else (mkCtx (delete k (base c)) (br c), true)
  | CClear => (mkCtx ∅ (br c), true)
  end.

(** [ApplicationAction.process_item]: the item's processing runs inside
    [with branch({context_key: item, context_key_index: index})]. *)
Definition process_item_ctx (seed : gmap string V) (body : list cop) (c : ctx)
  : ctx * bool :=
  exec_op (CBranch seed body) c.

(** Keys targeted by a set-like operation anywhere in [ops]. *)
Fixpoint op_sets (k : string) (o : cop) : bool :=
  match o with
  | CSet k' _ | CSetDefault k' _ => bool_decide (k = k')
  | CBranch _ body => existsb (op_sets k) body
  | _ => false
  end.

(** Whether an operation, or any operation nested in it, is one of the
    inherited [dict] methods. *)
Fixpoint uses_dict_methods (o : cop) : bool :=
  match o with
  | CUpdate _ | CPop _ _ | CPopItem _ | CClear => true
  | CBranch _ body => existsb uses_dict_methods body
  | _ => false
  end.

End Ctx.
Arguments ctx : clear implicits.
Arguments cop : clear implicits.
End Context.

(* ------------------------------------------------------------------ *)
(** ** Batches, item outcomes and the asyncio event loop *)

Module Sched.

(** A batch of action data as [process_action_data] classifies it: a value
    that is not iterable, a synchronous iterable, or an [AsyncIterable]. *)
Inductive data :=
| DAtom (z : Z)
| DList (l : list data)
| DAIter (l : list data).

(** How the action's processing of one item ends. *)
Inductive outcome :=
| OVal (v : Z)
| ORaise (e : string).

(** A value placed in a results array: a result or an exception object. *)
Inductive res :=
| RVal (v : Z)
| RExc (e : string).

(** What [process_action_data] produces: an exception raised out of it, a
    single item's result, the gathered list, or a gather still waiting for
    unfinished tasks. *)
Inductive dres :=
| DErr (e : string)
| DSingle (r : res)
| DResults (rs : list res)
| DPending.

(** Observable events of a run. *)
Inductive ev :=
| ECtx                          (* update_application_context *)
| EInit (act : option string)   (* the initializer is called *)
| EItem (tag : string) (i : Z)  (* a step of an action body *)
| ESend (r : option dres).      (* the batch result is fed back *)

(** The processing of one item by the selected action: the atomic
    segments it executes between its suspension points, and its end. *)
Record proc := mkProc { segs : list (list ev); out : outcome }.

(** How [wrapper] in [process_action_data] ends: it returns a value (with
    [return_exceptions] the caught exception object) or raises. *)
Inductive tres :=
| TRet (r : res)
| TRaise (e : string).

Definition wrapper (return_exceptions : bool) (o : outcome) : tres :=
  match o with
  | OVal v => TRet (RVal v)
  | ORaise e => if return_exceptions then TRet (RExc e) else TRaise e
  end.

(** A task created by [asyncio.create_task(wrapper(item, ...))]. *)
Record task := mkTask { pos : nat; rest : list (list ev); tout : tres }.

(** The event loop: tasks ready to run (in queue order), completed tasks
    (in completion order) and the events executed so far. *)
Record st := mkSt { ready : list task; done : list (nat * tres); tr : list ev }.

(** The loop resumes the [i]-th ready task: it runs up to its next
    suspension point and is queued again at the back, or it finishes. *)
Definition step (i : nat) (s : st) : st :=
  match ready s !! i with
  | None => s
  | Some t =>
      let q := delete i (ready s) in
      match rest t with
      | [] => mkSt q (done s ++ [(pos t, tout t)]) (tr s)
      | [seg] => mkSt q (done s ++ [(pos t, tout t)]) (tr s ++ seg)
      | seg :: r => mkSt (q ++ [mkTask (pos t) r (tout t)]) (done s) (tr s ++ seg)
      end
  end.

Definition run_sched (cs : list nat) (s : st) : st :=
  fold_left (fun s i => step i s) cs s.

(** A policy of the event loop: the choices it makes for a set of tasks. *)
Definition policy := list task -> list nat.

(** asyncio's ready queue when every suspension is a bare yield: always the
    oldest ready task, until all have finished. *)
Definition fifo : policy :=
  fun ts => repeat 0 (sum_list_with (fun t => S (length (rest t))) ts).

(** [[asyncio.create_task(wrapper(item, next(counter))) for item in data]] *)
Definition spawn (return_exceptions : bool) (ps : list proc) : list task :=
  imap (fun i p => mkTask i (segs p) (wrapper return_exceptions (out p))) ps.

Fixpoint first_raise (d : list (nat * tres)) : option string :=
  match d with
  | [] => None
  | (_, TRaise e) :: _ => Some e
  | _ :: d' => first_raise d'
  end.

(** The entry a finished task leaves in a [return_exceptions=True]
    gather: its value, or the exception it raised. *)
Definition to_res (r : tres) : res :=
  match r with TRet x => x | TRaise e => RExc e end.

(** An item's outcome as an entry of a results array. *)
Definition outcome_res (o : outcome) : res :=
  match o with OVal v => RVal v | ORaise e => RExc e end.

Fixpoint result_of (d : list (nat * tres)) (p : nat) : option res :=
  match d with
  | [] => None
  | (p', r) :: d' => if Nat.eqb p p' then Some (to_res r) else result_of d' p
  end.

(** [asyncio.gather( *tasks, return_exceptions=...)]: without
    [return_exceptions] the first exception (in completion order) is
    raised; otherwise, once every task is done, the results in the order
    of the tasks. *)
Definition gather (return_exceptions : bool) (n : nat) (s : st) : dres :=
  match (if return_exceptions then None else first_raise (done s)) with
  | Some e => DErr e
  | None =>
      match ready s with
      | [] => match mapM (result_of (done s)) (seq 0 n) with
              | Some rs => DResults rs
              | None => DPending
              end
      | _ => DPending
      end
  end.

(** [Application.process_action_data] with the event loop's policy [sch];
    [beh] is the selected action's processing of an item.  The async
    iterator of a [DAIter] batch is taken to produce its items without
    suspending. *)
Definition process_action_data (return_exceptions protected_items : bool)
    (beh : data -> proc) (sch : policy) (d : data) : dres * list ev :=
  let single x :=
    let p := beh x in
    (match wrapper return_exceptions (out p) with
     | TRet r => DSingle r
     | TRaise e => DErr e
     end, concat (segs p)) in
  if protected_items then single d
  else match d with
       | DList l | DAIter l =>
           let ts := spawn return_exceptions (beh <$> l) in
           let s := run_sched (sch ts) (mkSt ts [] []) in
           (gather return_exceptions (length l) s, tr s)
       | DAtom _ => single d
       end.

End Sched.

(* ------------------------------------------------------------------ *)
(** ** Application (core/application.py) *)

Module App.
Import Sched.

(** An [Application] whose initializer is a plain function (the
    single-shot producer protocol) with positional-or-keyword parameters
    only, among them [action=None], every other one with a default and no
    argument provider registered on the application.  [action_first] tells
    whether [action] is its first parameter; [initializer] gives the data
    it returns for the [action] value it receives.  No plugin is applied
    around the dispatch. *)
Record application := mkApp {
  actions : gmap string (data -> proc);
  default_action : option string;
  return_exceptions : bool;
  protected_items : bool;
  action_first : bool;
  initializer : option string -> data
}.

(** [Application.action_from_args]: [act] is the bound [action] argument:
    [s] for [run(action=s)], the default [None] for [run()]. *)
Definition action_from_args (a : application) (act : option string)
  : string * option (data -> proc) :=
  let chosen :=
    match act with
    | Some s => if String.eqb s ""%string then default_action a else Some s
    | None => default_action a
    end in
  let name := match chosen with Some s => s | None => ""%string end in
  (name, actions a !! name).

Inductive init_result :=
| IErr (e : string)
| IOk (arg : option string) (d : data) (act : option (data -> proc)).

(** [Application._run_initializer] for [run(action=s)] ([act = Some s])
    or [run()] ([act = None]).  When an action is found,
    [update_args(args, kwargs, action=action_name)] binds the name to the
    [action] parameter only when it is not the first parameter: for the
    first one [bind_partial(action=name).kwargs] is empty, so the
    original arguments, and the original [action] value, are passed on. *)
Definition run_initializer (a : application) (act : option string) : init_result :=
  let (name, action) := action_from_args a act in
  match action with
  | Some b =>
      match actions a !! name with
      | None => IErr "TypeError: Application action is unknown."%string
      | Some _ =>
          let arg := if action_first a then act else Some name in
          IOk arg (initializer a arg) (Some b)
      end
  | None => IOk act (initializer a act) None
  end.

Inductive run_out :=
| RunOk
| RunErr (e : string).

(** [Application.run(action=s)] ([act = Some s]) or [Application.run()]
    ([act = None]) for a plain-function initializer: [_send] is
    [_raise_stop], which ends the loop after the first batch, and [_throw]
    is [_raise_error], which re-raises a dispatch failure out of the run.
    [run] passes its own keyword arguments on in
    [self.process_action_data(action, data, counter, **kwargs)], whose
    parameter [action] then gets two values when [run] was called with
    [action=s]: [TypeError] before any item is dispatched. *)
Definition run (a : application) (act : option string) : run_out * list ev :=
  let tr0 := [ECtx] in
  match run_initializer a act with
  | IErr e => (RunErr e, tr0)
  | IOk arg d action =>
      let tr1 := tr0 ++ [EInit arg] in
      match action with
      | None => (RunOk, tr1 ++ [ESend None])
      | Some b =>
          match act with
          | Some _ =>
              (RunErr "TypeError: process_action_data() got multiple values for argument 'action'"%string,
               tr1)
          | None =>
              let (r, t) := process_action_data (return_exceptions a)
                              (protected_items a) b fifo d in
              match r with
              | DErr e => (RunErr e, tr1 ++ t)
              | _ => (RunOk, tr1 ++ t ++ [ESend (Some r)])
              end
          end
      end
  end.

End App.

(* ------------------------------------------------------------------ *)
(** ** Actions and their composition (core/actions.py) *)

Module Actions.

(** An [Action] instance: either a leaf (a [RunnerAction] of some runner,
    with the steps that resolve its Lazy arguments in [__get_bound_sig] and
    the steps of its runner's body) or the [ShiftAction] built by
    [a >> b], a [MergedAction]. *)
Inductive action :=
| Leaf (name : string) (pre : list string) (body : list string)
| Shift (a b : action).





End Actions.

(* ------------------------------------------------------------------ *)
(** ** Deferred calls (core/actions.py) *)

Module LazyEngine.
Section Lazy.

(** Python callables, and the attribute lookup [getattr(value, name)]
    used for a step recorded by name. *)
Variable fn_t : Type.

(** The target of a queued step: a callable, or a method name. *)
Inductive target :=
| TFn (f : fn_t)
| TName (s : string).

(** Python values as the engine sees them; [PAwaitable v] is an awaitable
    whose result is [v]; [PLazy q] is a [Lazy] with its [_call_queue]. *)
Inductive pyval :=
| PInt (z : Z)
| PStr (s : string)
| PNone
| PAwaitable (v : pyval)
| PLazy (q : list (target * list pyval * list (string * pyval))).

Variable apply_fn : fn_t -> list pyval -> list (string * pyval) -> pyval.
Variable getattr_fn : pyval -> string -> fn_t.

(** [await as_future(v)] *)
Definition await1 (v : pyval) : pyval :=
  match v with PAwaitable w => w | _ => v end.

(** [await v()] for a [Lazy] [v]: the queue runs in order; in each step
    [to_args] awaits every [Lazy] argument and every awaitable argument,
    the target is the callable or [getattr(value, name)], and the awaited
    result becomes the running value, which starts as the [Lazy] itself. *)
Fixpoint lazy_await (v : pyval) : pyval :=
  match v with
  | PLazy q =>
      (fix go (q' : list (target * list pyval * list (string * pyval))) (cur : pyval)
         : pyval :=
         match q' with
         | [] => cur
         | (t, args, kws) :: rest =>
             let args' := map (fun a => match a with
                                        | PLazy _ => lazy_await a
                                        | PAwaitable w => w
                                        | _ => a
                                        end) args in
             let kws' := map (fun kv => (fst kv, match snd kv with
                                                 | PLazy _ => lazy_await (snd kv)
                                                 | PAwaitable w => w
                                                 | x => x
                                                 end)) kws in
             let f := match t with TFn f => f | TName s => getattr_fn cur s end in
             go rest (await1 (apply_fn f args' kws'))
         end) q v
  | _ => v
  end.

(** One argument as [to_args] hands it to the step's callable. *)
Definition to_arg (a : pyval) : pyval :=
  match a with
  | PLazy _ => lazy_await a
  | PAwaitable w => w
  | _ => a
  end.

(** [Lazy(fn, *args, **kwargs)]: its queue holds the one step
    [(fn, args, kwargs)]. *)
Definition lazy_call (f : fn_t) (args : list pyval) (kws : list (string * pyval)) : pyval :=
  PLazy [(TFn f, args, kws)].

(** The spec's comparison: [f( *args, **kwargs)] called directly, awaited
    if its result is awaitable. *)
Definition direct_call (f : fn_t) (args : list pyval) (kws : list (string * pyval)) : pyval :=
  await1 (apply_fn f args kws).

Definition is_plain (a : pyval) : bool :=
  match a with PLazy _ | PAwaitable _ => false | _ => true end.

(** A declared parameter of a runner (kind POSITIONAL_OR_KEYWORD) and its
    default. *)
Record param := mkParam { pname : string; pdefault : option pyval }.

Fixpoint kw_lookup (k : string) (kws : list (string * pyval)) : option pyval :=
  match kws with
  | [] => None
  | (k', v) :: kws' => if String.eqb k k' then Some v else kw_lookup k kws'
  end.

Definition kw_remove (k : string) (kws : list (string * pyval)) : list (string * pyval) :=
  List.filter (fun kv => negb (String.eqb k (fst kv))) kws.

(** [Signature.bind( *args, **kwargs)] followed by [apply_defaults()]:
    [None] stands for the [TypeError] raised on too many positional
    arguments, a value given twice, a missing argument or an unexpected
    keyword; otherwise the bound arguments in parameter order. *)
Fixpoint sig_bind (ps : list param) (args : list pyval) (kws : list (string * pyval))
  : option (list (string * pyval)) :=
  match ps, args with
  | [], [] => match kws with [] => Some [] | _ => None end
  | [], _ :: _ => None
  | p :: ps', a :: args' =>
      match kw_lookup (pname p) kws with
      | Some _ => None
      | None => cons (pname p, a) <$> sig_bind ps' args' kws
      end
  | p :: ps', [] =>
      match kw_lookup (pname p) kws with
      | Some v => cons (pname p, v) <$> sig_bind ps' [] (kw_remove (pname p) kws)
      | None =>
          match pdefault p with
          | Some d => cons (pname p, d) <$> sig_bind ps' [] kws
          | None => None
          end
      end
  end.

(** [(await value()) if isinstance(value, Lazy) else value] *)
Definition resolve_lazy (a : pyval) : pyval :=
  match a with PLazy _ => lazy_await a | _ => a end.

(** [Action.__get_bound_sig]: [self.__signature.bind( *args, *kwargs)]
    unpacks the keyword dict with a single star, which passes its keys as
    further positional arguments. *)
Definition action_bound (ps : list param) (args : list pyval) (kws : list (string * pyval))
  : option (list (string * pyval)) :=
  let args' := map resolve_lazy args in
  let kws' := map (fun kv => (fst kv, resolve_lazy (snd kv))) kws in
  sig_bind ps (args' ++ map (fun kv => PStr (fst kv)) kws') [].

(** The spec's binding: the positional and the keyword values, Lazy ones
    resolved first, bound against the declared parameters. *)
Definition spec_action_bound (ps : list param) (args : list pyval) (kws : list (string * pyval))
  : option (list (string * pyval)) :=
  sig_bind ps (map resolve_lazy args) (map (fun kv => (fst kv, resolve_lazy (snd kv))) kws).

End Lazy.

Arguments TFn {fn_t} f.
Arguments TName {fn_t} s.
Arguments PInt {fn_t} z.
Arguments PStr {fn_t} s.
Arguments PNone {fn_t}.
Arguments PAwaitable {fn_t} v.
Arguments PLazy {fn_t} q.
Arguments mkParam {fn_t} pname pdefault.
Arguments await1 {fn_t} v.
Arguments lazy_await {fn_t} apply_fn getattr_fn v.
Arguments to_arg {fn_t} apply_fn getattr_fn a.
Arguments lazy_call {fn_t} f args kws.
Arguments direct_call {fn_t} apply_fn f args kws.
Arguments is_plain {fn_t} a.
Arguments resolve_lazy {fn_t} apply_fn getattr_fn a.
Arguments action_bound {fn_t} apply_fn getattr_fn ps args kws.
Arguments spec_action_bound {fn_t} apply_fn getattr_fn ps args kws.

(** Sample callables: [first( *args)] returns its first argument,
    [const_z()] returns [z]. *)
Inductive sample_fn := FFirst | FConst (z : Z).

Definition sample_apply (f : sample_fn) (args : list (pyval sample_fn))
    (kws : list (string * pyval sample_fn)) : pyval sample_fn :=
  match f with
  | FFirst => match args with a :: _ => a | [] => PNone end
  | FConst z => PInt z
  end.

Definition sample_getattr (_ : pyval sample_fn) (_ : string) : sample_fn := FFirst.

End LazyEngine.

(* ------------------------------------------------------------------ *)
(** ** Reading of the sequential-dispatch sentence of the spec *)

Module SpecDispatch.
Import Sched.


End SpecDispatch.

(* ------------------------------------------------------------------ *)
(** ** Sample applications *)

Module Samples.
Import Sched App.

(** An action body that logs a start, suspends once ([await
    asyncio.sleep(0)]), logs an end and returns [2 * item]; it raises on
    the item [3]. *)
Definition double_with_yield (x : data) : proc :=
  match x with
  | DAtom i =>
      mkProc [[EItem "start" i]; [EItem "end" i]]
             (if Z.eqb i 3 then ORaise "ValueError" else OVal (2 * i))
  | _ => mkProc [] (OVal 0)
  end.

(** An application registering the single action [process] (so it is the
    default) whose initializer [def init(action=None)] returns the list
    [batch]. *)
Definition sample_app (return_exceptions : bool) (batch : list Z) : application :=
  mkApp {["process" := double_with_yield]} (Some "process")
        return_exceptions false true (fun _ => DList (DAtom <$> batch)).

End Samples.

(* ------------------------------------------------------------------ *)
(** ** Invariants used in the proofs *)

Module Invariants.
Import Context Sched.

Section BaseKept.
Context {V : Type}.
Implicit Types (c : ctx V).

(** What an operation may do to the base while some branch is active:
    no key appears, no key disappears, and only keys it sets change. *)
Definition base_kept (sets : string -> bool) c c' : Prop :=
  (forall k, base c !! k = None -> base c' !! k = None) /\
  (forall k, is_Some (base c !! k) -> is_Some (base c' !! k)) /\
  (forall k, sets k = false -> base c' !! k = base c !! k).

End BaseKept.

(** The invariant of a gather over tasks whose wrapper outcomes are
    [outs]: every task is ready or done, and every ready or done task
    carries its own outcome. *)
Definition sinv (outs : list tres) (s : st) : Prop :=
  (forall p, p < length outs ->
     (exists t, t ∈ ready s /\ pos t = p) \/ (exists r, (p, r) ∈ done s)) /\
  (forall t, t ∈ ready s -> outs !! pos t = Some (tout t)) /\
  (forall p r, (p, r) ∈ done s -> outs !! p = Some r).


End Invariants.

(* ------------------------------------------------------------------ *)
(** ** The rest of [ApplicationContext] (core/context.py) *)

Module ContextExt.
Import Context.
Section CtxExt.
Context {V : Type}.

(** [ApplicationContext.__len__]: [super().__len__() + len(branch or {})]. *)
Definition ctx_len (c : ctx V) : nat :=
  size (base c) + match br c with Some b => size b | None => 0 end.

(** [ApplicationContext.get(key, default)]: [self[key]], or [default] on
    [KeyError]. *)
Definition ctx_get_default (c : ctx V) (k : string) (d : V) : V :=
  match ctx_get c k with Some v => v | None => d end.

(** [ApplicationContext.setdefault]: [if key not in self: self[key] =
    default], then [return self[key]]; the context after the call and the
    returned value ([None] for a [KeyError]). *)
Definition ctx_setdefault (c : ctx V) (k : string) (d : V) : ctx V * option V :=
  let c' := if ctx_contains c k then c else ctx_set c k d in
  (c', ctx_get c' k).

(** [ContextScope] *)
Inductive scope := SApplication | SAction.

(** [ApplicationContext.get_scope]: [action] when [branch] is truthy. *)
Definition ctx_scope (c : ctx V) : scope :=
  match br c with
  | Some b => if bool_decide (b = ∅) then SApplication else SAction
  | None => SApplication
  end.

(** [ApplicationContext.unpack( *keys, default=...)]: [None] for the
    argument left at [empty]; the result [None] is a raised [KeyError]. *)
Definition ctx_unpack (c : ctx V) (keys : list string) (default : option V)
  : option (list V) :=
  mapM (fun k => match default with
                 | None => ctx_get c k
                 | Some d => Some (ctx_get_default c k d)
                 end) keys.

(** The body of a [with branch(...)] block: its operations in order, up
    to the first one that raises (the inner loop of [exec_op]). *)
Fixpoint exec_body (l : list (cop V)) (c : ctx V) : ctx V * bool :=
  match l with
  | [] => (c, true)
  | o :: l' =>
      let (c', ok) := exec_op o c in
      if ok then exec_body l' c' else (c', false)
  end.

End CtxExt.
End ContextExt.

(* ------------------------------------------------------------------ *)
(** ** Plugin stacks (core/plugin.py) *)

Module Plugs.
Section Plugs.

(** Plugin objects, the arguments and results of a hooked call, and the
    hook [getattr(plugin, method)] of a plugin: it receives the [resolve]
    continuation ([_resolve] of [StackItem.__call__]) and the arguments. *)
Variable plugin : Type.
Variables A B : Type.

(** [Plugins.methods] *)
Inductive meth := MAction | MItem | MData.

Definition methods : list meth := [MAction; MItem; MData].

Variable hook : plugin -> meth -> (A -> B) -> A -> B.

(** The three [Stack]s of a [Plugins] object, each as the list of its
    items' plugins from [_top] down along [bind_to], and [_plugins]. *)
Record pstate := mkPS {
  s_action : list plugin;
  s_item : list plugin;
  s_data : list plugin;
  active : list plugin
}.

Definition stack_of (m : meth) (s : pstate) : list plugin :=
  match m with MAction => s_action s | MItem => s_item s | MData => s_data s end.

Definition set_stack (m : meth) (l : list plugin) (s : pstate) : pstate :=
  match m with
  | MAction => mkPS l (s_item s) (s_data s) (active s)
  | MItem => mkPS (s_action s) l (s_data s) (active s)
  | MData => mkPS (s_action s) (s_item s) l (active s)
  end.

(** [Stack.push]: [self._top = StackItem(fn, self._top)]. *)
Definition push (m : meth) (p : plugin) (s : pstate) : pstate :=
  set_stack m (p :: stack_of m s) s.

(** [Stack.pop]: [None] is the [AttributeError] of [None.bind_to] on an
    empty stack. *)
Definition pop (m : meth) (s : pstate) : option pstate :=
  match stack_of m s with
  | [] => None
  | _ :: l => Some (set_stack m l s)
  end.

(** [Stack.__call__(resolve, *args)]: the top item runs its hook with a
    [_resolve] that calls the item below ([bind_to]) with the same
    [resolve]; the bottom item's [_resolve] is [resolve] itself. *)
Definition stack_call (m : meth) (s : pstate) (resolve : A -> B) : A -> B :=
  fold_right (fun p k => hook p m k) resolve (stack_of m s).

(** Entering [Plugins.apply( *loaders)] with the plugins [ps] the loaders
    give: [for middleware in plugins[::-1]], push its hook on every stack,
    then [self._plugins.append(middleware)]. *)
Definition enter_one (s : pstate) (p : plugin) : pstate :=
  let s' := fold_left (fun s m => push m p s) methods s in
  mkPS (s_action s') (s_item s') (s_data s') (active s' ++ [p]).

Definition apply_enter (ps : list plugin) (s : pstate) : pstate :=
  fold_left enter_one (rev ps) s.

Fixpoint pop_all (ms : list meth) (s : pstate) : option pstate :=
  match ms with
  | [] => Some s
  | m :: ms' => s' ← pop m s; pop_all ms' s'
  end.

Fixpoint pops (ps : list plugin) (s : pstate) : option pstate :=
  match ps with
  | [] => Some s
  | _ :: ps' => s' ← pop_all methods s; pops ps' s'
  end.

(** Leaving [Plugins.apply] (its [finally] clause): every stack is popped
    once per plugin, then [self._plugins.pop()] runs once, after the loop;
    [None] is the [IndexError] of popping an empty list. *)
Definition apply_exit (ps : list plugin) (s : pstate) : option pstate :=
  s' ← pops (rev ps) s;
  match active s' with
  | [] => None
  | _ => Some (mkPS (s_action s') (s_item s') (s_data s') (removelast (active s')))
  end.

End Plugs.

Arguments mkPS {plugin} s_action s_item s_data active.
Arguments s_action {plugin} p.
Arguments s_item {plugin} p.
Arguments s_data {plugin} p.
Arguments active {plugin} p.

End Plugs.

(* ------------------------------------------------------------------ *)
(** ** Action registration (core/application.py) *)

Module Registry.
Section Registry.

(** [self.action_class(fn)] for a registered function. *)
Variable T : Type.

Record reg := mkReg { r_actions : gmap string T; r_default : option string }.

(** One use of [Application.action]: the name given ([None] for the bare
    decorator), the function's [__name__], the wrapped action and the
    [default] flag. *)
Record regcall := mkRegCall {
  rc_name : option string;
  rc_fname : string;
  rc_action : T;
  rc_default : bool
}.

(** [acion_name = name or fn.__name__] *)
Definition reg_name (c : regcall) : string :=
  match rc_name c with
  | Some s => if String.eqb s ""%string then rc_fname c else s
  | None => rc_fname c
  end.

(** [inner(fn)] of [Application.action] *)
Definition register (r : reg) (c : regcall) : reg :=
  let n := reg_name c in
  mkReg (<[n := rc_action c]> (r_actions r))
        (if rc_default c || bool_decide (r_default r = None) then Some n else r_default r).

Definition register_all (cs : list regcall) (r : reg) : reg :=
  fold_left register cs r.

End Registry.

Arguments mkReg {T} r_actions r_default.
Arguments r_actions {T} _.
Arguments r_default {T} _.
Arguments mkRegCall {T} rc_name rc_fname rc_action rc_default.
Arguments rc_name {T} _.
Arguments rc_fname {T} _.
Arguments rc_action {T} _.
Arguments rc_default {T} _.
Arguments reg_name {T} c.
Arguments register {T} r c.
Arguments register_all {T} cs r.

End Registry.

(* ------------------------------------------------------------------ *)
(** ** Dicts as association lists *)

Module Dict.
Section Dict.
Context {X : Type}.

(** [d[k]] on a dict with unique keys: the first entry with key [k]. *)
Fixpoint alookup (k : string) (d : list (string * X)) : option X :=
  match d with
  | [] => None
  | (k', v) :: d' => if String.eqb k k' then Some v else alookup k d'
  end.

(** [kwargs.pop(k)] (all entries with key [k]). *)
Definition aremove (k : string) (d : list (string * X)) : list (string * X) :=
  List.filter (fun kv => negb (String.eqb k kv.1)) d.

(** [d[k] = v]: an existing key keeps its position, a new one goes last. *)
Fixpoint d_set (k : string) (v : X) (d : list (string * X)) : list (string * X) :=
  match d with
  | [] => [(k, v)]
  | (k', v') :: d' => if String.eqb k k' then (k, v) :: d' else (k', v') :: d_set k v d'
  end.

(** [d.update(u)], and [{**d, **u}] *)
Definition d_update (d u : list (string * X)) : list (string * X) :=
  fold_left (fun d kv => d_set kv.1 kv.2 d) u d.

End Dict.
End Dict.

(* ------------------------------------------------------------------ *)
(** ** Argument binding of [ArgumentsMixin] (core/application.py) *)

Module Args.
Import Dict.
Section Args.
Context {V : Type}.

(** Python's [None], handed to a provider for an unbound argument. *)
Variable py_none : V.

(** A parameter of the wrapped function, of kind POSITIONAL_OR_KEYWORD,
    with its default.  The signatures modelled here have parameters of that
    kind only: no [*args], [**kwargs] or keyword-only parameter, except
    that [_has_argument] below takes the presence of [**kwargs] as
    [var_kw]. *)
Record aparam := mkAParam { apname : string; apdefault : option V }.

Definition names (ps : list aparam) : list string := map apname ps.

(** [_has_argument(name)]: a parameter of that name, or a [**kwargs]
    parameter ([var_kw]). *)
Definition has_argument (ps : list aparam) (var_kw : bool) (name : string) : bool :=
  existsb (fun p => String.eqb (apname p) name) ps || var_kw.

(** [Signature.bind_partial( *args, **kwargs).arguments] for a signature of
    POSITIONAL_OR_KEYWORD parameters; [None] is the [TypeError] raised on
    too many positional arguments, a value given both positionally and by
    keyword, or an unexpected keyword. *)
Fixpoint bind_partial (ps : list aparam) (args : list V) (kws : list (string * V))
  : option (list (string * V)) :=
  match ps, args with
  | [], [] => match kws with [] => Some [] | _ => None end
  | [], _ :: _ => None
  | p :: ps', a :: args' =>
      match alookup (apname p) kws with
      | Some _ => None
      | None => cons (apname p, a) <$> bind_partial ps' args' kws
      end
  | p :: ps', [] =>
      match alookup (apname p) kws with
      | Some v => cons (apname p, v) <$> bind_partial ps' [] (aremove (apname p) kws)
      | None => bind_partial ps' [] kws
      end
  end.

(** [BoundArguments.apply_defaults] *)
Definition apply_defaults (ps : list aparam) (m : list (string * V)) : list (string * V) :=
  omap (fun p => match alookup (apname p) m with
                 | Some v => Some (apname p, v)
                 | None => (fun d => (apname p, d)) <$> apdefault p
                 end) ps.

(** [BoundArguments.args]: the values of the leading parameters that are
    bound, up to the first unbound one. *)
Fixpoint ba_args (ps : list aparam) (m : list (string * V)) : list V :=
  match ps with
  | [] => []
  | p :: ps' =>
      match alookup (apname p) m with
      | Some v => v :: ba_args ps' m
      | None => []
      end
  end.

(** [BoundArguments.kwargs]: the bound parameters after the first unbound
    one. *)
Fixpoint ba_kwargs (ps : list aparam) (m : list (string * V)) : list (string * V) :=
  match ps with
  | [] => []
  | p :: ps' =>
      match alookup (apname p) m with
      | Some _ => ba_kwargs ps' m
      | None => omap (fun q => (fun v => (apname q, v)) <$> alookup (apname q) m) ps'
      end
  end.

(** The entries of [K] for the parameters [ps], in parameter order: the
    shape of the [arguments] dict a binding builds. *)
Definition in_param_order (ps : list aparam) (K : list (string * V)) : list (string * V) :=
  omap (fun q => (fun v => (apname q, v)) <$> alookup (apname q) K) ps.

(** [ArgumentsMixin.bind_args] *)
Definition bind_args (ps : list aparam) (args : list V) (kws : list (string * V))
  : option (list (string * V)) :=
  pos ← bind_partial ps args [];
  bind_partial ps [] (d_update pos kws).

(** The providers registered in [_arguments], in registration order. *)
Definition providers := list (string * (V -> V)).

(** One iteration of the loop of [ArgumentsMixin.parse_args] over
    [_arguments]: the provider gets [bound.arguments.get(arg, None)]; its
    result replaces the bound value, or goes to the extra [kwargs]. *)
Definition prov_step (acc : list (string * V) * list (string * V)) (nf : string * (V -> V))
  : list (string * V) * list (string * V) :=
  let '(b, ex) := acc in
  let v := nf.2 (match alookup nf.1 b with Some x => x | None => py_none end) in
  match alookup nf.1 b with
  | Some _ => (d_set nf.1 v b, ex)
  | None => (b, d_set nf.1 v ex)
  end.

(** [bound.arguments] after [apply_defaults] and the providers' loop, and
    the extra [kwargs]. *)
Definition parse_bound (ps : list aparam) (provs : providers)
    (args : list V) (kws : list (string * V))
  : option (list (string * V) * list (string * V)) :=
  b ← bind_args ps args kws;
  Some (fold_left prov_step provs (apply_defaults ps b, [])).

(** [ArgumentsMixin.parse_args]: [bound.args, {**bound.kwargs, **kwargs}] *)
Definition parse_args (ps : list aparam) (provs : providers)
    (args : list V) (kws : list (string * V))
  : option (list V * list (string * V)) :=
  '(b, ex) ← parse_bound ps provs args kws;
  Some (ba_args ps b, d_update (ba_kwargs ps b) ex).

(** One iteration of the keyword loop of [ArgumentsMixin.update_args]:
    [if key in bound.arguments: bound.arguments[key] = value], then
    [kwargs[key] = value]. *)
Definition upd_step (acc : list (string * V) * list (string * V)) (kv : string * V)
  : list (string * V) * list (string * V) :=
  let '(b, kw) := acc in
  (match alookup kv.1 b with Some _ => d_set kv.1 kv.2 b | None => b end,
   d_set kv.1 kv.2 kw).

(** [ArgumentsMixin.update_args(args, kwargs, *extra_args, **extra_kwargs)] *)
Definition update_args (ps : list aparam) (args : list V) (kws : list (string * V))
    (xargs : list V) (xkws : list (string * V))
  : option (list V * list (string * V)) :=
  b ← bind_args ps args kws;
  xa ← bind_partial ps xargs [];
  let b := d_update b xa in
  xk ← bind_partial ps [] xkws;
  let '(b, kw) := fold_left upd_step (ba_kwargs ps xk) (b, []) in
  Some (ba_args ps b, d_update (ba_kwargs ps b) kw).

(** How [ArgumentsMixin.argument] is used as a decorator on a provider:
    [@x.argument("name")] or bare [@x.argument] (the provider itself passed
    as [name_or_fn], [fname] its [__name__]). *)
Inductive arg_use :=
| UseName (s : string)
| UseBare (fname : string).

(** The registry after the decorated definition; [None] is the
    [AttributeError] of [_has_argument(name, throw=True)].  The bare form
    returns [_argument_decorator(name)], the decorator itself, as the
    decorated value. *)
Definition decorate_argument (ps : list aparam) (var_kw : bool) (provs : providers)
    (u : arg_use) (g : V -> V) : option providers :=
  let name := match u with UseName s => s | UseBare f => f end in
  if has_argument ps var_kw name then
    match u with
    | UseName s => Some (d_set s g provs)
    | UseBare _ => Some provs
    end
  else None.

End Args.

Arguments mkAParam {V} apname apdefault.
Arguments apname {V} a.
Arguments apdefault {V} a.

End Args.

(* ------------------------------------------------------------------ *)
(** ** Invariant of the providers' loop of [parse_args] *)

Module ArgsInvariants.
Import Dict Args.
Section ArgsInvariants.
Context {V : Type}.
Variable py_none : V.

(** What the providers' loop of [parse_args] has done after the providers
    [P]: a bound argument holds its provider's result, an unbound one with a
    provider sits in the extra keywords. *)
Definition prov_inv (D : list (string * V)) (P : providers)
    (st : list (string * V) * list (string * V)) : Prop :=
  (forall k, alookup k st.1 =
     match alookup k P, alookup k D with Some f, Some x => Some (f x) | _, r => r end) /\
  (forall k, alookup k st.2 =
     match alookup k P, alookup k D with Some f, None => Some (f py_none) | _, _ => None end) /\
  NoDup (map fst st.2).

End ArgsInvariants.
End ArgsInvariants.

(* ------------------------------------------------------------------ *)
(** ** [Lazy] objects in the heap (core/actions.py) *)

Module LazyHeap.
Import LazyEngine.
Section LazyHeap.
Context {fn_t : Type}.
Variable apply_fn : fn_t -> list (pyval fn_t) -> list (string * pyval fn_t) -> pyval fn_t.
Variable getattr_fn : pyval fn_t -> string -> fn_t.

Definition queue := list (target fn_t * list (pyval fn_t) * list (string * pyval fn_t)).

(** The [_call_queue]s of the [Lazy] objects alive, by object identity. *)
Definition heap := gmap nat queue.

(** [_lazy_special_wrapper(name)] called on the object [r]:
    [self._call_queue.append([name, args, kwargs]); return self]. *)
Definition lazy_special (h : heap) (r : nat) (name : string)
    (args : list (pyval fn_t)) (kws : list (string * pyval fn_t)) : heap * nat :=
  match h !! r with
  | Some q => (<[r := q ++ [(TName name, args, kws)]]> h, r)
  | None => (h, r)
  end.

(** [await r()] *)
Definition await_ref (h : heap) (r : nat) : option (pyval fn_t) :=
  (fun q => lazy_await apply_fn getattr_fn (PLazy q)) <$> h !! r.

(** One iteration of the loop of [Lazy.__call__]: [to_args] on the
    positional and keyword values, a step recorded by name looked up on the
    running value, and the awaited result as the new running value. *)
Definition queue_step (cur : pyval fn_t)
    (st : target fn_t * list (pyval fn_t) * list (string * pyval fn_t)) : pyval fn_t :=
  let '(t, args, kws) := st in
  let f := match t with TFn f => f | TName s => getattr_fn cur s end in
  await1 (apply_fn f (map (to_arg apply_fn getattr_fn) args)
                     (map (fun kv => (fst kv, to_arg apply_fn getattr_fn (snd kv))) kws)).

End LazyHeap.
End LazyHeap.

(* ------------------------------------------------------------------ *)
(** ** Results of an action body (core/application.py) *)

Module Results.

(** The value an action body returns, as [_process_action] classifies it:
    an [Action] (with the result of awaiting it), a [Lazy] (with the value
    its call gives), an [Iterator] or generator, an async generator, a
    dict, a string, another iterable (list, tuple, ...), or any other
    value. *)
Inductive rv :=
| RInt (z : Z)
| RNone
| RStr (s : string)
| RDict (l : list (rv * rv))
| RList (l : list rv)
| RTuple (l : list rv)
| RIter (l : list rv)
| RAGen (l : list rv)
| RAction (r : rv)
| RLazy (r : rv).

Definition is_action_or_lazy (x : rv) : bool :=
  match x with RAction _ | RLazy _ => true | _ => false end.

(** The one-character strings a string iterates over. *)
Fixpoint str_chars (s : string) : list rv :=
  match s with
  | EmptyString => []
  | String a s' => RStr (String a EmptyString) :: str_chars s'
  end.

(** [ApplicationAction._process_action]: an [Action] is awaited, a [Lazy]
    is awaited and its value processed again, the elements of an
    iterable that are an [Action] or a [Lazy] are processed and the others
    kept, and [asyncio.gather] returns a list; a dict or any other value is
    the result as is. *)
Fixpoint process_action (x : rv) : rv :=
  match x with
  | RAction r => r
  | RLazy r => process_action r
  | RIter l | RAGen l | RList l | RTuple l =>
      RList (map (fun s => if is_action_or_lazy s then process_action s else s) l)
  | RStr s => RList (str_chars s)
  | RDict _ | RInt _ | RNone => x
  end.

End Results.

(* ================================================================== *)
(** * Proofs *)

(* ------------------------------------------------------------------ *)
(** ** Scoped context *)

Module ContextFacts.
Import Context Invariants.

Section Facts.
Context {V : Type}.
Implicit Types (c : ctx V) (k : string) (v : V).

(** Induction over [cop] with a hypothesis for each element of a branch
    body. *)
Lemma cop_rect' (P : cop V -> Prop)
  (Hset : forall k v, P (CSet k v))
  (Hsd : forall k v, P (CSetDefault k v))
  (Hget : forall k, P (CGet k))
  (Hdel : forall k, P (CDel k))
  (Hbr : forall seed body, Forall P body -> P (CBranch seed body))
  (Hraise : P CRaise)
  (Hupd : forall u, P (CUpdate u))
  (Hpop : forall k d, P (CPop k d))
  (Hpopi : forall k, P (CPopItem k))
  (Hclear : P CClear)
  (o : cop V) : P o.
Proof.
  revert o. exact (fix R (o : cop V) : P o :=
  match o with
  | CSet k v => Hset k v
  | CSetDefault k v => Hsd k v
  | CGet k => Hget k
  | CDel k => Hdel k
  | CBranch seed body =>
      Hbr seed body
        ((fix F (l : list (cop V)) : Forall P l :=
            match l with
            | [] => List.Forall_nil P
            | x :: l' => List.Forall_cons P x l'
                           (R x) (F l')
            end) body)
  | CRaise => Hraise
  | CUpdate u => Hupd u
  | CPop k d => Hpop k d
  | CPopItem k => Hpopi k
  | CClear => Hclear
  end).
Qed.

Lemma base_kept_refl sets c : base_kept sets c c.
Proof. repeat split; auto. Qed.

Lemma base_kept_trans (s1 s2 : string -> bool) c1 c2 c3 :
  base_kept s1 c1 c2 -> base_kept s2 c2 c3 ->
  base_kept (fun k => s1 k || s2 k) c1 c3.
Proof.
  intros (A1 & B1 & C1) (A2 & B2 & C2). repeat split; auto.
  intros k Hk. apply orb_false_iff in Hk as [Hk1 Hk2].
  rewrite C2 by done. by apply C1.
Qed.

Lemma base_kept_weaken (s1 s2 : string -> bool) c c' :
  (forall k, s1 k = true -> s2 k = true) ->
  base_kept s1 c c' -> base_kept s2 c c'.
Proof.
  intros Himp (A & B & C). repeat split; auto.
  intros k Hk. apply C. destruct (s1 k) eqn:E; [|done].
  rewrite (Himp k E) in Hk. done.
Qed.

Lemma ctx_set_inside c k v :
  is_Some (br c) ->
  is_Some (br (ctx_set c k v)) /\
  base_kept (fun k' => bool_decide (k' = k)) c (ctx_set c k v).
Proof.
  intros [b Hb]. unfold ctx_set. rewrite Hb.
  destruct (bool_decide (is_Some (b !! k)) || negb (bool_decide (is_Some (base c !! k))))
    eqn:E; simpl.
  - split; [eauto|]. repeat split; simpl; auto.
  - split; [simpl; eauto|].
    apply orb_false_iff in E as [_ E].
    apply negb_false_iff, bool_decide_eq_true in E.
    repeat split; simpl.
    + intros k' Hk'. destruct (decide (k' = k)) as [->|Hne].
      * rewrite Hk' in E. by destruct E.
      * by rewrite lookup_insert_ne.
    + intros k' Hk'. destruct (decide (k' = k)) as [->|Hne].
      * rewrite lookup_insert_eq. eauto.
      * by rewrite lookup_insert_ne.
    + intros k' Hk'. apply bool_decide_eq_false in Hk'.
      by rewrite lookup_insert_ne.
Qed.

Lemma exec_op_inside (o : cop V) :
  forall c, is_Some (br c) -> uses_dict_methods o = false ->
  is_Some (br (fst (exec_op o c))) /\
  base_kept (fun k => op_sets k o) c (fst (exec_op o c)).
Proof.
  induction o as [k v|k v|k|k|seed body IH| | | | | ] using cop_rect'; intros c Hc Hd; simpl;
    try discriminate.
  - apply ctx_set_inside; done.
  - destruct (ctx_contains c k) eqn:E; simpl.
    + split; [done|]. apply base_kept_refl.
    + apply ctx_set_inside; done.
  - split; [done|]. apply base_kept_refl.
  - split; [done|]. apply base_kept_refl.
  - split; [done|].
    simpl in Hd.
    assert (Hgo : forall c0, is_Some (br c0) ->
      base_kept (fun k => existsb (op_sets k) body) c0
        (fst ((fix go (l : list (cop V)) (c : ctx V) : ctx V * bool :=
                  match l with
                  | [] => (c, true)
                  | o :: l' =>
                      let (c', ok) := exec_op o c in
                      if ok then go l' c' else (c', false)
                  end) body c0))).
    { clear c Hc. induction IH as [|o l Ho Hl IHl]; intros c0 Hc0; simpl.
      - apply base_kept_refl.
      - simpl in Hd. apply orb_false_iff in Hd as [Hdo Hdl].
        specialize (IHl Hdl).
        destruct (Ho c0 Hc0 Hdo) as [Hbr Hk].
        destruct (exec_op o c0) as [c1 ok] eqn:E1; simpl in *.
        destruct ok.
        + eapply base_kept_weaken; [|eapply base_kept_trans; [exact Hk|apply IHl; exact Hbr]].
          done.
        + eapply base_kept_weaken; [|exact Hk]. intros k Hk'. by rewrite Hk'. }
    destruct (Hgo (mkCtx (base c) (Some seed)) ltac:(simpl; eauto)) as (A & B & C).
    repeat split; simpl; auto.
  - split; [done|]. apply base_kept_refl.
Qed.

End Facts.
End ContextFacts.

Import Context ContextFacts.

Section ContextClaims.
Context {V : Type}.

(** C3: with an active branch overlay [b], [get(key)] returns the overlay's
    value when the key is in the overlay and the base's value otherwise;
    [set(key, value)] stores into the overlay when the key is already in the
    overlay or absent from the base, and into the base otherwise. *)
Theorem ctx_overlay_get_set (c : ctx V) (b : gmap string V) (Hb : br c = Some b)
    (k : string) (v : V) :
  (forall x, b !! k = Some x -> ctx_get c k = Some x) /\
  (b !! k = None -> ctx_get c k = base c !! k) /\
  (is_Some (b !! k) \/ base c !! k = None ->
     ctx_set c k v = mkCtx (base c) (Some (<[k:=v]> b))) /\
  (b !! k = None -> is_Some (base c !! k) ->
     ctx_set c k v = mkCtx (<[k:=v]> (base c)) (Some b)).
Proof.
  unfold ctx_get, ctx_set. rewrite Hb.
  split; [|split; [|split]].
  - intros x Hx. case_bool_decide as He.
    + subst b. by rewrite lookup_empty in Hx.
    + by rewrite Hx.
  - intros Hn. case_bool_decide; [done|]. by rewrite Hn.
  - intros [Hs|Hn].
    + by rewrite (bool_decide_eq_true_2 _ Hs).
    + rewrite Hn. simpl. rewrite orb_true_r. done.
  - intros Hn Hs. rewrite Hn, (bool_decide_eq_true_2 _ Hs).
    case_bool_decide as Hx; [by destruct Hx|]. done.
Qed.

(** C10: iterating the context yields exactly the keys present both in the
    active overlay and in the base; with no branch active it yields no key,
    although every base key is still retrievable by [get]. *)
Theorem ctx_iter_keys (c : ctx V) (k : string) :
  (k ∈ ctx_iter c <-> exists b, br c = Some b /\ k ∈ dom b /\ k ∈ dom (base c)) /\
  (br c = None ->
     ctx_iter c = ∅ /\ forall v, base c !! k = Some v -> ctx_get c k = Some v).
Proof.
  unfold ctx_iter, ctx_get. split.
  - destruct (br c) as [b|].
    + rewrite elem_of_intersection. split.
      * intros H. eauto.
      * intros (b' & Hb' & H). injection Hb' as <-. done.
    + split; [set_solver|]. intros (b' & Hb' & _). done.
  - intros Hn. rewrite Hn. split; [done|]. auto.
Qed.

(** C6 (code as written): an item whose processing calls [ctx.update(u)]
    introduces the keys of [u] for good: after the item's branch is
    discarded, a key of [u] that was not in the context before is in it,
    with its value from [u], because the inherited [dict.update] writes the
    base dict directly instead of going through [__setitem__] and the
    branch. *)
Theorem item_update_outlives_branch (seed u : gmap string V) (c : ctx V) (k : string) (v : V)
    (Hnew : ctx_contains c k = false) (Hu : u !! k = Some v) :
  let r := process_item_ctx seed [CUpdate u] c in
  snd r = true /\ br (fst r) = br c /\
  ctx_contains (fst r) k = true /\ ctx_get (fst r) k = Some v.
Proof.
  cbn. assert (Hk : (u ∪ base c) !! k = Some v) by (by apply lookup_union_Some_l).
  split; [done|]. split; [done|].
  unfold ctx_contains, ctx_get in *. cbn [base br]. rewrite Hk.
  destruct (br c) as [b|].
  - apply orb_false_iff in Hnew as [Hb _]. apply bool_decide_eq_false in Hb.
    destruct (b !! k) eqn:Eb; [destruct Hb; eauto|].
    split; [by rewrite orb_true_r|]. by case_bool_decide.
  - done.
Qed.

End ContextClaims.

(** Witness for C3: base [{"_application": 1, "total": 0}], overlay
    [{"item": 5}]; reading ["total"] falls through, and setting ["total"]
    writes through to the base. *)
Lemma ctx_overlay_get_set_witness :
  let c : ctx Z := mkCtx {["_application" := 1%Z; "total" := 0%Z]} (Some {["item" := 5%Z]}) in
  (forall x : Z, ({["item" := 5%Z]} : gmap string Z) !! "total" = Some x ->
     ctx_get c "total" = Some x) /\
  (({["item" := 5%Z]} : gmap string Z) !! "total" = None ->
     ctx_get c "total" = base c !! "total") /\
  (is_Some (({["item" := 5%Z]} : gmap string Z) !! "total") \/ base c !! "total" = None ->
     ctx_set c "total" 7%Z = mkCtx (base c) (Some (<[ "total" := 7%Z ]> {["item" := 5%Z]}))) /\
  (({["item" := 5%Z]} : gmap string Z) !! "total" = None -> is_Some (base c !! "total") ->
     ctx_set c "total" 7%Z = mkCtx (<[ "total" := 7%Z ]> (base c)) (Some {["item" := 5%Z]})).
Proof.
  intros c. apply (ctx_overlay_get_set c {["item" := 5%Z]}). reflexivity.
Defined.

(** Witness for C10: no branch active over the base [{"total": 0}]. *)
Lemma ctx_iter_keys_witness :
  let c : ctx Z := mkCtx {["total" := 0%Z]} None in
  ("total" ∈ ctx_iter c <-> exists b, br c = Some b /\ "total" ∈ dom b /\ "total" ∈ dom (base c)) /\
  (br c = None ->
     ctx_iter c = ∅ /\ forall v, base c !! "total" = Some v -> ctx_get c "total" = Some v).
Proof. intros c. apply (ctx_iter_keys c "total"). Defined.

(** Witness for C6: outside any branch, over the base [{"total": 0}], an
    item calls [ctx.update({"new": 1})]. *)
Lemma item_update_outlives_branch_witness :
  let c : ctx Z := mkCtx {["total" := 0%Z]} None in
  let r := process_item_ctx {["item" := 5%Z]} [CUpdate {["new" := 1%Z]}] c in
  ctx_contains c "new" = false /\
  (snd r = true /\ br (fst r) = br c /\
   ctx_contains (fst r) "new" = true /\ ctx_get (fst r) "new" = Some 1%Z).
Proof.
  intros c r. split; [reflexivity|].
  apply (item_update_outlives_branch {["item" := 5%Z]} {["new" := 1%Z]} c "new" 1%Z).
  - reflexivity.
  - reflexivity.
Defined.

(* ------------------------------------------------------------------ *)
(** ** The event loop *)

Module SchedFacts.
Import Sched Invariants.

Lemma to_res_wrapper re o : to_res (wrapper re o) = outcome_res o.
Proof. destruct o; [done|]. by destruct re. Qed.

Lemma elem_of_delete_inv {A} (l : list A) i x y :
  l !! i = Some x -> y ∈ l -> y = x \/ y ∈ delete i l.
Proof.
  intros Hi Hy. rewrite (delete_Permutation l i x Hi) in Hy.
  by apply elem_of_cons in Hy.
Qed.

Lemma elem_of_delete_sub {A} (l : list A) i y : y ∈ delete i l -> y ∈ l.
Proof. apply list_elem_of_delete_inv. Qed.

Lemma sinv_step outs s i : sinv outs s -> sinv outs (step i s).
Proof.
  intros (Hcov & Hready & Hdone). unfold step.
  destruct (ready s !! i) as [t|] eqn:Hi; [|done].
  assert (Ht : outs !! pos t = Some (tout t)) by (apply Hready, list_elem_of_lookup_2 with i; done).
  assert (Hsub : forall y, y ∈ delete i (ready s) -> y ∈ ready s) by (intros y; apply elem_of_delete_sub).
  assert (Hdone' : forall p r, (p, r) ∈ done s ++ [(pos t, tout t)] -> outs !! p = Some r).
  { intros p r Hpr. apply elem_of_app in Hpr as [Hpr|Hpr]; [by apply Hdone|].
    apply list_elem_of_singleton in Hpr. by injection Hpr as -> ->. }
  assert (Hcov' : forall p, p < length outs ->
     (exists t', t' ∈ delete i (ready s) /\ pos t' = p) \/ pos t = p \/
     (exists r, (p, r) ∈ done s)).
  { intros p Hp. destruct (Hcov p Hp) as [(t' & Ht' & <-)|Hd]; [|by right; right].
    destruct (elem_of_delete_inv _ _ _ _ Hi Ht') as [->|Hin]; [by right; left|].
    left. eauto. }
  destruct (rest t) as [|seg [|seg' r]] eqn:Hr; simpl.
  - split; [|split]; simpl; auto.
    intros p Hp. destruct (Hcov' p Hp) as [H|[<-|(r & Hpr)]]; [by left| |].
    + right. exists (tout t). apply elem_of_app. right. by apply list_elem_of_singleton.
    + right. exists r. apply elem_of_app. by left.
  - split; [|split]; simpl; auto.
    intros p Hp. destruct (Hcov' p Hp) as [H|[<-|(r & Hpr)]]; [by left| |].
    + right. exists (tout t). apply elem_of_app. right. by apply list_elem_of_singleton.
    + right. exists r. apply elem_of_app. by left.
  - split; [|split]; simpl; auto.
    + intros p Hp. destruct (Hcov' p Hp) as [(t' & Ht' & Hp')|[<-|Hd]]; [| |by right].
      * left. exists t'. split; [|done]. apply elem_of_app. by left.
      * left. exists (mkTask (pos t) (seg' :: r) (tout t)). split; [|done].
        apply elem_of_app. right. by apply list_elem_of_singleton.
    + intros t' Ht'. apply elem_of_app in Ht' as [Ht'|Ht']; [by apply Hready, Hsub|].
      apply list_elem_of_singleton in Ht'. by subst t'.
Qed.

Lemma sinv_run_sched outs cs s : sinv outs s -> sinv outs (run_sched cs s).
Proof.
  revert s. induction cs as [|i cs IH]; intros s H; simpl; [done|].
  apply IH, sinv_step, H.
Qed.

Lemma result_of_done (outs : list tres) (d : list (nat * tres)) p r0 :
  (forall p' r, (p', r) ∈ d -> outs !! p' = Some r) ->
  (exists r, (p, r) ∈ d) -> outs !! p = Some r0 ->
  result_of d p = Some (to_res r0).
Proof.
  induction d as [|[p' r'] d IH]; intros Hd (r & Hr) Hp.
  - by apply elem_of_nil in Hr.
  - simpl. destruct (Nat.eqb_spec p p') as [->|Hne].
    + assert (outs !! p' = Some r') as Hr' by (apply Hd; apply elem_of_cons; by left).
      rewrite Hp in Hr'. by injection Hr' as ->.
    + apply IH; [intros; apply Hd; apply elem_of_cons; by right| |done].
      apply elem_of_cons in Hr as [Hr|Hr]; [by injection Hr as ->|eauto].
Qed.

Lemma Forall2_seq {A} (P : nat -> A -> Prop) (l : list A) k :
  (forall i x, l !! i = Some x -> P (k + i) x) -> Forall2 P (seq k (length l)) l.
Proof.
  revert k. induction l as [|x l IH]; intros k H; simpl; constructor.
  - specialize (H 0 x eq_refl). by rewrite Nat.add_0_r in H.
  - apply IH. intros i y Hy. specialize (H (S i) y Hy). by rewrite Nat.add_succ_r in H.
Qed.

Lemma gather_drained (outs : list tres) s :
  sinv outs s -> ready s = [] ->
  mapM (result_of (done s)) (seq 0 (length outs)) = Some (to_res <$> outs).
Proof.
  intros (Hcov & _ & Hdone) Hr. apply mapM_Some_2.
  rewrite <- (length_fmap to_res outs). apply Forall2_seq.
  intros i y Hy. rewrite list_lookup_fmap in Hy.
  destruct (outs !! i) as [r0|] eqn:Hi; [|done]. injection Hy as <-. simpl.
  apply result_of_done with outs; [done| |done].
  destruct (Hcov i) as [(t & Ht & _)|Hd]; [by apply lookup_lt_Some with r0| |done].
  rewrite Hr in Ht. by apply elem_of_nil in Ht.
Qed.

Lemma gather_results re outs s rs :
  sinv outs s -> gather re (length outs) s = DResults rs -> rs = to_res <$> outs.
Proof.
  intros Hinv. unfold gather.
  destruct (if re then None else first_raise (done s)); [done|].
  destruct (ready s) eqn:Hr; [|done].
  rewrite (gather_drained outs s Hinv Hr). congruence.
Qed.


Lemma spawn_outs re (ps : list proc) :
  tout <$> spawn re ps = (fun p => wrapper re (out p)) <$> ps.
Proof.
  apply list_eq. intros i. unfold spawn.
  rewrite !list_lookup_fmap, list_lookup_imap. by destruct (ps !! i).
Qed.

Lemma sinv_spawn re (ps : list proc) :
  sinv (tout <$> spawn re ps) (mkSt (spawn re ps) [] []).
Proof.
  split; [|split]; simpl.
  - intros p Hp. left. rewrite length_fmap in Hp.
    apply lookup_lt_is_Some_2 in Hp as [t Ht].
    exists t. split; [by apply list_elem_of_lookup_2 with p|].
    unfold spawn in Ht. rewrite list_lookup_imap in Ht.
    destruct (ps !! p); [|done]. by injection Ht as <-.
  - intros t Ht. apply list_elem_of_lookup_1 in Ht as [i Hi].
    rewrite list_lookup_fmap.
    assert (pos t = i) as ->.
    { unfold spawn in Hi. rewrite list_lookup_imap in Hi.
      destruct (ps !! i); [|done]. by injection Hi as <-. }
    by rewrite Hi.
  - intros p r H. by apply elem_of_nil in H.
Qed.










End SchedFacts.

(* ------------------------------------------------------------------ *)
(** ** Dispatch of a batch *)

Module DispatchFacts.
Import Sched SchedFacts Invariants.

Lemma spawn_results re (beh : data -> proc) (l : list data) :
  to_res <$> (tout <$> spawn re (beh <$> l)) = (fun x => outcome_res (out (beh x))) <$> l.
Proof.
  rewrite spawn_outs. apply list_eq. intros i.
  rewrite !list_lookup_fmap. destruct (l !! i); simpl; [|done].
  by rewrite to_res_wrapper.
Qed.

Lemma length_spawn re (ps : list proc) : length (spawn re ps) = length ps.
Proof. apply length_imap. Qed.

(** Whatever the event loop's choices, a gathered results array lists the
    items' outcomes in item order. *)
Lemma iter_dispatch_results re (beh : data -> proc) (l : list data) cs rs :
  gather re (length l) (run_sched cs (mkSt (spawn re (beh <$> l)) [] [])) = DResults rs ->
  rs = (fun x => outcome_res (out (beh x))) <$> l.
Proof.
  intros H. rewrite <- (spawn_results re beh l).
  apply (gather_results re _ (run_sched cs (mkSt (spawn re (beh <$> l)) [] []))).
  - apply sinv_run_sched, sinv_spawn.
  - by rewrite length_fmap, length_spawn, length_fmap.
Qed.



End DispatchFacts.

Import Sched SchedFacts DispatchFacts SpecDispatch Samples App.

(** C7: for a concurrently dispatched batch of N items (a synchronous or
    asynchronous iterable, [protected_items] false), whatever order the
    event loop runs and completes the item tasks in, a returned results
    array has length N and holds at position i the outcome of item i. *)
Theorem concurrent_results_in_item_order (re : bool) (beh : data -> proc) (sch : policy)
    (d : data) (l : list data) (rs : list res)
    (Hd : d = DList l \/ d = DAIter l)
    (Hres : fst (process_action_data re false beh sch d) = DResults rs) :
  length rs = length l /\
  forall i x, l !! i = Some x -> rs !! i = Some (outcome_res (out (beh x))).
Proof.
  assert (Hrs : rs = (fun x => outcome_res (out (beh x))) <$> l).
  { destruct Hd as [->| ->]; simpl in Hres; eapply iter_dispatch_results; exact Hres. }
  subst rs. split; [by rewrite length_fmap|].
  intros i x Hx. by rewrite list_lookup_fmap, Hx.
Qed.

(** Witness: items 1 and 2, the event loop resuming item 2 first, so item
    2 completes before item 1; the results still follow item order. *)
Lemma concurrent_results_in_item_order_witness :
  length [RVal 2; RVal 4] = length [DAtom 1; DAtom 2] /\
  forall i x, [DAtom 1; DAtom 2] !! i = Some x ->
    [RVal 2; RVal 4] !! i = Some (outcome_res (out (double_with_yield x))).
Proof.
  apply (concurrent_results_in_item_order false double_with_yield (fun _ => [1; 1; 0; 0])
           (DList [DAtom 1; DAtom 2])).
  - by left.
  - reflexivity.
Defined.

Lemma action_from_args_lookup (a : application) act :
  snd (action_from_args a act) = actions a !! fst (action_from_args a act).
Proof. reflexivity. Qed.

(** C8 (code as written): a run called as [run(action=name)] for a
    registered action raises [TypeError] after the initializer has run and
    before any item is dispatched, whether or not it collects exceptions:
    [run] passes [action=name] on to [process_action_data], whose own
    parameter [action] then gets two values, and [_raise_error] re-raises
    the error out of the run. *)
Theorem run_action_keyword_aborts (a : application) (name : string) (b : data -> proc)
    (Hname : name <> ""%string) (Hlk : actions a !! name = Some b) :
  run a (Some name) =
    (RunErr "TypeError: process_action_data() got multiple values for argument 'action'"%string,
     [ECtx; EInit (Some name)]).
Proof.
  unfold run, run_initializer, action_from_args. cbn [default_action].
  rewrite (proj2 (String.eqb_neq name ""%string) Hname). rewrite Hlk.
  by destruct (action_first a).
Qed.

(** Witness: the spec's example application, collecting exceptions over
    [[1, 2, 3, 4]], called as [run(action="process")]. *)
Lemma run_action_keyword_aborts_witness :
  "process"%string <> ""%string /\
  actions (sample_app true [1; 2; 3; 4]%Z) !! "process"%string = Some double_with_yield /\
  run (sample_app true [1; 2; 3; 4]%Z) (Some "process") =
    (RunErr "TypeError: process_action_data() got multiple values for argument 'action'"%string,
     [ECtx; EInit (Some "process")]).
Proof.
  split; [discriminate|]. split; [reflexivity|].
  apply (run_action_keyword_aborts _ "process" double_with_yield).
  - discriminate.
  - reflexivity.
Defined.

(** [run()] on the spec's example: the whole trace. *)
Lemma collect_exceptions_example :
  snd (run (sample_app true [1; 2; 3; 4]%Z) None) =
    [ECtx; EInit None;
     EItem "start" 1; EItem "start" 2; EItem "start" 3; EItem "start" 4;
     EItem "end" 1; EItem "end" 2; EItem "end" 3; EItem "end" 4;
     ESend (Some (DResults [RVal 2; RVal 4; RExc "ValueError"; RVal 8]))].
Proof. reflexivity. Qed.




(** The [TypeError] branch of [_run_initializer] is only reached after
    [self._actions.get(name)] found an action, so it never fires. *)
Lemma run_initializer_never_raises (a : application) act e :
  run_initializer a act <> IErr e.
Proof.
  unfold run_initializer.
  pose proof (action_from_args_lookup a act) as H.
  destruct (action_from_args a act) as [name [b|]]; simpl in H; [|done].
  by rewrite <- H.
Qed.

(** C1 (code as written): when the [action] argument selects a name with
    no registered action, no error is raised: the run calls the
    initializer with that argument, dispatches nothing and ends
    normally. *)
Theorem unknown_action_runs_initializer (a : application) (act : option string) (name : string)
    (Hsel : action_from_args a act = (name, None)) :
  run a act = (RunOk, [ECtx; EInit act; ESend None]).
Proof. unfold run, run_initializer. by rewrite Hsel. Qed.

(** Witness: [run(action="missing")] on an application whose only action
    is [process]. *)
Lemma unknown_action_runs_initializer_witness :
  action_from_args (sample_app false [1; 2]%Z) (Some "missing") = ("missing", None) /\
  run (sample_app false [1; 2]%Z) (Some "missing") =
    (RunOk, [ECtx; EInit (Some "missing"); ESend None]).
Proof.
  split; [reflexivity|].
  apply (unknown_action_runs_initializer _ _ "missing"). reflexivity.
Defined.

(* ------------------------------------------------------------------ *)
(** ** Action composition *)

Module ActionFacts.
Import Actions.








End ActionFacts.

Import Actions ActionFacts.




(* ------------------------------------------------------------------ *)
(** ** Deferred calls and action arguments *)

Import LazyEngine.

Section LazyClaims.
Context {fn_t : Type}.
Variable apply_fn : fn_t -> list (pyval fn_t) -> list (string * pyval fn_t) -> pyval fn_t.
Variable getattr_fn : pyval fn_t -> string -> fn_t.

Lemma map_to_arg_plain (l : list (pyval fn_t)) :
  Forall (fun a => is_plain a = true) l -> map (to_arg apply_fn getattr_fn) l = l.
Proof.
  induction 1 as [|a l Ha _ IH]; [done|]. simpl. rewrite IH.
  destruct a; done.
Qed.

Lemma map_kw_to_arg_plain (l : list (string * pyval fn_t)) :
  Forall (fun kv => is_plain (snd kv) = true) l ->
  map (fun kv => (fst kv, to_arg apply_fn getattr_fn (snd kv))) l = l.
Proof.
  induction 1 as [|[k a] l Ha _ IH]; [done|]. simpl. rewrite IH.
  destruct a; done.
Qed.

(** C9 (as the code has it): awaiting the [Lazy] wrapping [f] with its
    arguments, with no further step queued, returns [f] called on its
    arguments after each [Lazy] argument is replaced by its awaited result
    and each awaitable argument by its value, the call's result awaited if
    awaitable; with arguments that are neither, this is [f]'s direct
    result. *)
Theorem lazy_single_step_result (f : fn_t) (args : list (pyval fn_t))
    (kws : list (string * pyval fn_t)) :
  lazy_await apply_fn getattr_fn (lazy_call f args kws) =
    await1 (apply_fn f (map (to_arg apply_fn getattr_fn) args)
                       (map (fun kv => (fst kv, to_arg apply_fn getattr_fn (snd kv))) kws)) /\
  (Forall (fun a => is_plain a = true) args ->
   Forall (fun kv => is_plain (snd kv) = true) kws ->
   lazy_await apply_fn getattr_fn (lazy_call f args kws) = direct_call apply_fn f args kws).
Proof.
  assert (Heq : lazy_await apply_fn getattr_fn (lazy_call f args kws) =
    await1 (apply_fn f (map (to_arg apply_fn getattr_fn) args)
                       (map (fun kv => (fst kv, to_arg apply_fn getattr_fn (snd kv))) kws))).
  { unfold lazy_call. simpl. f_equal. f_equal; apply map_ext;
      intros [k a]; destruct a; reflexivity. }
  split; [exact Heq|]. intros Ha Hk. rewrite Heq.
  unfold direct_call. by rewrite map_to_arg_plain, map_kw_to_arg_plain.
Qed.

End LazyClaims.

(** Witness: [Lazy(first, 7)] awaits to [7]. *)
Lemma lazy_single_step_result_witness :
  Forall (fun a => is_plain a = true) [@PInt sample_fn 7] /\
  lazy_await sample_apply sample_getattr (lazy_call FFirst [PInt 7] []) =
    direct_call sample_apply FFirst [PInt 7] [].
Proof.
  split; [repeat constructor|].
  apply (lazy_single_step_result sample_apply sample_getattr FFirst [PInt 7] []);
    repeat constructor.
Defined.

(** C9 counterexample: for [first(x) = x] and the argument
    [Lazy(const_5)], calling [first] directly returns the [Lazy] object,
    while awaiting [Lazy(first, Lazy(const_5))] returns [5]. *)
Lemma lazy_not_direct_result :
  lazy_await sample_apply sample_getattr (lazy_call FFirst [lazy_call (FConst 5) [] []] []) =
    PInt 5 /\
  direct_call sample_apply FFirst [lazy_call (FConst 5) [] []] [] = lazy_call (FConst 5) [] [] /\
  lazy_await sample_apply sample_getattr (lazy_call FFirst [lazy_call (FConst 5) [] []] []) <>
    direct_call sample_apply FFirst [lazy_call (FConst 5) [] []] [].
Proof. split; [reflexivity|]. split; [reflexivity|]. simpl. discriminate. Qed.

(** C4: for a runner [def r(a, b=0)] awaited as [Action(1, b=5)], the
    bound arguments of [__get_bound_sig] give [b] the string ["b"] (the
    keyword's name), while binding the keyword value gives [b = 5]. *)
Theorem action_keyword_value_lost :
  action_bound sample_apply sample_getattr
    [mkParam "a" None; mkParam "b" (Some (PInt 0))] [PInt 1] [("b", PInt 5)] =
    Some [("a", PInt 1); ("b", PStr "b")] /\
  spec_action_bound sample_apply sample_getattr
    [mkParam "a" None; mkParam "b" (Some (PInt 0))] [PInt 1] [("b", PInt 5)] =
    Some [("a", PInt 1); ("b", PInt 5)].
Proof. split; reflexivity. Qed.

(* ================================================================== *)
(** * Further properties of the engine *)

Module ContextProps.
Import Context ContextFacts ContextExt.

Module ContextExtFacts.
Section Facts.
Context {V : Type}.
Implicit Types (c : ctx V).

Lemma get_set_same c k v : ctx_get (ctx_set c k v) k = Some v.
Proof.
  unfold ctx_set, ctx_get. destruct (br c) as [b|] eqn:Hb.
  - destruct (bool_decide (is_Some (b !! k)) || negb (bool_decide (is_Some (base c !! k)))) eqn:Hc;
      simpl.
    + rewrite bool_decide_eq_false_2 by apply insert_non_empty.
      by rewrite lookup_insert_eq.
    + apply orb_false_iff in Hc as [H1 _].
      apply bool_decide_eq_false_1 in H1. apply eq_None_not_Some in H1.
      rewrite H1. rewrite lookup_insert_eq.
      by destruct (bool_decide (b = ∅)).
  - simpl. by rewrite lookup_insert_eq.
Qed.

Lemma get_set_other c k v k' : k' <> k -> ctx_get (ctx_set c k v) k' = ctx_get c k'.
Proof.
  intros Hne. unfold ctx_set, ctx_get. destruct (br c) as [b|] eqn:Hb.
  - destruct (bool_decide (is_Some (b !! k)) || negb (bool_decide (is_Some (base c !! k)))) eqn:Hc;
      simpl.
    + rewrite bool_decide_eq_false_2 by apply insert_non_empty.
      rewrite lookup_insert_ne by congruence.
      destruct (bool_decide_reflect (b = ∅)) as [->|_]; [|done].
      by rewrite lookup_empty.
    + rewrite lookup_insert_ne by congruence. done.
  - simpl. by rewrite lookup_insert_ne by congruence.
Qed.

Lemma contains_iff_get c k : ctx_contains c k = true <-> is_Some (ctx_get c k).
Proof.
  unfold ctx_contains, ctx_get. destruct (br c) as [b|].
  - rewrite orb_true_iff, !bool_decide_eq_true.
    destruct (bool_decide_reflect (b = ∅)) as [->|_].
    + rewrite lookup_empty. split; [intros [H|H]; [by destruct H|done]|by right].
    + destruct (b !! k) eqn:Hk; split; auto.
      intros [H|H]; [by destruct H|done].
  - by rewrite bool_decide_eq_true.
Qed.

Lemma size_union_inter (X Y : gset string) :
  size (X ∪ Y) + size (X ∩ Y) = size X + size Y.
Proof.
  assert (X ∪ Y = X ∪ (Y ∖ X)) as HU.
  { apply set_eq. intros x. destruct (decide (x ∈ X)); set_solver. }
  assert (Y = (X ∩ Y) ∪ (Y ∖ X)) as HY.
  { apply set_eq. intros x. destruct (decide (x ∈ X)); set_solver. }
  rewrite HU, (size_union X (Y ∖ X)) by set_solver.
  rewrite HY at 3. rewrite (size_union (X ∩ Y) (Y ∖ X)) by set_solver. lia.
Qed.

Lemma exec_op_overlay (o : cop V) c b :
  br c = Some b ->
  exists b', br (fst (exec_op o c)) = Some b' /\ dom b ⊆ dom b'.
Proof.
  intros Hb. destruct o; simpl.
  - unfold ctx_set. rewrite Hb.
    destruct (_ || _); simpl; [|by exists b].
    exists (<[k:=v]> b). split; [done|]. rewrite dom_insert_L. set_solver.
  - destruct (ctx_contains c k); simpl; [by exists b|].
    unfold ctx_set. rewrite Hb.
    destruct (_ || _); simpl; [|by exists b].
    exists (<[k:=v]> b). split; [done|]. rewrite dom_insert_L. set_solver.
  - by exists b.
  - by exists b.
  - by exists b.
  - by exists b.
  - by exists b.
  - destruct (base c !! k), d; simpl; by exists b.
  - case_bool_decide; simpl; by exists b.
  - by exists b.
Qed.

Lemma exec_body_overlay (l : list (cop V)) c b :
  br c = Some b ->
  exists b', br (fst (exec_body l c)) = Some b' /\ dom b ⊆ dom b'.
Proof.
  revert c b. induction l as [|o l IH]; intros c b Hb; simpl; [by exists b|].
  destruct (exec_op_overlay o c b Hb) as (b1 & Hb1 & Hs1).
  destruct (exec_op o c) as [c' ok] eqn:He. simpl in Hb1.
  destruct ok; simpl; [|by exists b1].
  destruct (IH c' b1 Hb1) as (b2 & Hb2 & Hs2). exists b2. split; [done|]. set_solver.
Qed.

Lemma exec_op_branch_body (seed : gmap string V) (body : list (cop V)) c :
  exec_op (CBranch seed body) c =
    (mkCtx (base (fst (exec_body body (mkCtx (base c) (Some seed))))) (br c),
     snd (exec_body body (mkCtx (base c) (Some seed)))).
Proof. reflexivity. Qed.

Lemma mapM_Some_map {A B} (f : A -> B) (l : list A) :
  mapM (fun x => Some (f x)) l = Some (map f l).
Proof. induction l as [|x l IH]; simpl; [done|]. by rewrite IH. Qed.

Lemma mapM_None_Exists {A B} (f : A -> option B) (l : list A) :
  mapM f l = None <-> Exists (fun x => f x = None) l.
Proof.
  induction l as [|x l IH]; simpl.
  - split; [done|]. intros H; inversion H.
  - rewrite Exists_cons. destruct (f x) eqn:Hx; simpl.
    + rewrite <- IH. destruct (mapM f l); simpl; split.
      * done.
      * intros [H|H]; congruence.
      * intros _. by right.
      * done.
    + split; [by left|done].
Qed.

End Facts.
End ContextExtFacts.

Import ContextExtFacts.

Section ContextExtra.
Context {V : Type}.

(** X1: after [ctx[k] = v], [ctx[k]] returns [v] and every other key reads
    as before, whether or not a branch is active (also with an empty one). *)
Theorem ctx_set_then_get (c : ctx V) (k : string) (v : V) :
  ctx_get (ctx_set c k v) k = Some v /\
  forall k', k' <> k -> ctx_get (ctx_set c k v) k' = ctx_get c k'.
Proof. split; [apply get_set_same|intros; by apply get_set_other]. Qed.

(** X2: [k in ctx] holds exactly when [ctx[k]] does not raise [KeyError]. *)
Theorem ctx_contains_get (c : ctx V) (k : string) :
  ctx_contains c k = true <-> is_Some (ctx_get c k).
Proof. apply contains_iff_get. Qed.

(** X3: [len(ctx)] is the number of distinct keys plus the number of keys
    present both in the base and in the branch: a shadowed key counts twice. *)
Theorem ctx_len_counts_shared_twice (c : ctx V) :
  let ov := match br c with Some b => dom b | None => ∅ end in
  ctx_len c = size (dom (base c) ∪ ov) + size (dom (base c) ∩ ov).
Proof.
  simpl. unfold ctx_len. rewrite size_union_inter, size_dom.
  destruct (br c) as [b|]; [by rewrite size_dom|]. by rewrite size_empty.
Qed.

(** X4: [ctx.setdefault(k, d)] returns [ctx.get(k, d)]; it leaves the
    context unchanged when [k] is present, and with an active branch it
    stores a missing key into the branch only. *)
Theorem ctx_setdefault_spec (c : ctx V) (k : string) (d : V) :
  snd (ctx_setdefault c k d) = Some (ctx_get_default c k d) /\
  (ctx_contains c k = true -> fst (ctx_setdefault c k d) = c) /\
  (forall b, br c = Some b -> ctx_contains c k = false ->
     fst (ctx_setdefault c k d) = mkCtx (base c) (Some (<[k:=d]> b))).
Proof.
  unfold ctx_setdefault, ctx_get_default. split; [|split].
  - destruct (ctx_contains c k) eqn:Hc; simpl.
    + apply contains_iff_get in Hc as [v Hv]. by rewrite Hv.
    + rewrite get_set_same.
      destruct (ctx_get c k) eqn:Hg; [|done].
      assert (is_Some (ctx_get c k)) as Hs by (rewrite Hg; eauto).
      apply contains_iff_get in Hs. congruence.
  - intros ->. done.
  - intros b Hb Hc. rewrite Hc. simpl. unfold ctx_set. rewrite Hb.
    unfold ctx_contains in Hc. rewrite Hb in Hc. apply orb_false_iff in Hc as [H1 H2].
    by rewrite H1, H2.
Qed.

(** X5: while an item's body runs inside [branch(seed)] with a non-empty seed,
    [get_scope()] is [action] after every prefix of the body; once the
    branch exits, the scope is the one before the item. *)
Theorem item_scope_action (seed : gmap string V) (body : list (cop V)) (c : ctx V)
    (Hseed : seed <> ∅) :
  (forall n, ctx_scope (fst (exec_body (take n body) (mkCtx (base c) (Some seed)))) = SAction) /\
  ctx_scope (fst (process_item_ctx seed body c)) = ctx_scope c.
Proof.
  split.
  - intros n.
    destruct (exec_body_overlay (take n body) (mkCtx (base c) (Some seed)) seed eq_refl)
      as (b' & Hb' & Hsub).
    unfold ctx_scope. rewrite Hb'. rewrite bool_decide_eq_false_2; [done|].
    intros ->. apply Hseed. apply map_empty. intros i.
    apply not_elem_of_dom. rewrite dom_empty_L in Hsub. set_solver.
  - unfold process_item_ctx. rewrite exec_op_branch_body. reflexivity.
Qed.

(** X6: [ctx.unpack( *keys, default=d)] returns [ctx.get(k, d)] for each key;
    without a default it raises [KeyError] exactly when some key is missing. *)
Theorem ctx_unpack_default (c : ctx V) (keys : list string) (d : V) :
  ctx_unpack c keys (Some d) = Some (map (fun k => ctx_get_default c k d) keys) /\
  (ctx_unpack c keys None = None <-> Exists (fun k => ctx_get c k = None) keys).
Proof.
  split.
  - apply mapM_Some_map.
  - apply mapM_None_Exists.
Qed.

(** X21: when an item's code uses only the operations [ApplicationContext]
    overrides (item access, [setdefault], [get], [del] and nested
    branches), none of the inherited [dict] methods, then after its branch
    is discarded: the branch variable is back to its previous value, a key
    that was not in the context before is not in it afterwards, every base
    key stays present, and a base key keeps its value unless some
    operation of the item sets that key. *)
Theorem item_branch_discarded_item_ops (seed : gmap string V) (body : list (cop V)) (c : ctx V)
    (Hops : existsb uses_dict_methods body = false) :
  let c' := fst (process_item_ctx seed body c) in
  br c' = br c /\
  (forall k, ctx_contains c k = false ->
     ctx_contains c' k = false /\ ctx_get c' k = None) /\
  (forall k, is_Some (base c !! k) -> is_Some (base c' !! k)) /\
  (forall k, existsb (op_sets k) body = false -> base c' !! k = base c !! k).
Proof.
  intros c'.
  assert (Hbr : br c' = br c) by reflexivity.
  destruct (exec_op_inside (CBranch seed body) (mkCtx (base c) (Some seed))
              ltac:(simpl; eauto) Hops) as [_ (A & B & C)].
  assert (Hbase : base c' = base (fst (exec_op (CBranch seed body) (mkCtx (base c) (Some seed))))).
  { reflexivity. }
  simpl in A, B, C.
  split; [done|]. split; [|split].
  - intros k Hk. unfold ctx_contains, ctx_get in *. rewrite Hbr.
    assert (Hnone : base c !! k = None).
    { destruct (br c); destruct (base c !! k) eqn:E; auto;
        rewrite ?orb_true_r in Hk; simpl in Hk; rewrite ?orb_true_r in Hk; discriminate. }
    assert (Hnone' : base c' !! k = None) by (rewrite Hbase; apply A; done).
    rewrite Hnone'. destruct (br c) as [b|].
    + apply orb_false_iff in Hk as [Hk _].
      apply bool_decide_eq_false in Hk. destruct (b !! k) eqn:Eb; [destruct Hk; eauto|].
      rewrite bool_decide_eq_false_2 by (intros [? ?]; done). simpl.
      split; [done|]. by case_bool_decide.
    + rewrite bool_decide_eq_false_2 by (intros [? ?]; done). done.
  - intros k Hk. rewrite Hbase. apply B. done.
  - intros k Hk. rewrite Hbase. apply C. done.
Qed.

End ContextExtra.

End ContextProps.

(* ------------------------------------------------------------------ *)

Module PlugsFacts.
Import Plugs.
Section Facts.
Context {plugin A B : Type}.
Variable hook : plugin -> meth -> (A -> B) -> A -> B.
Implicit Types (s : pstate plugin).

Lemma stack_enter_one m s p : stack_of plugin m (enter_one plugin s p) = p :: stack_of plugin m s.
Proof. by destruct m. Qed.

Lemma active_enter_one s p : active (enter_one plugin s p) = active s ++ [p].
Proof. reflexivity. Qed.

Lemma stack_apply_enter m ps s :
  stack_of plugin m (apply_enter plugin ps s) = ps ++ stack_of plugin m s.
Proof.
  induction ps as [|p ps IH]; [done|].
  unfold apply_enter in *. cbn [rev]. rewrite fold_left_app. cbn [fold_left].
  by rewrite stack_enter_one, IH.
Qed.

Lemma active_apply_enter ps s : active (apply_enter plugin ps s) = active s ++ rev ps.
Proof.
  induction ps as [|p ps IH]; [simpl; by rewrite app_nil_r|].
  unfold apply_enter in *. cbn [rev]. rewrite fold_left_app. cbn [fold_left].
  by rewrite active_enter_one, IH, app_assoc.
Qed.

Lemma pop_all_methods s :
  (forall m, stack_of plugin m s <> []) ->
  pop_all plugin methods s =
    Some (mkPS (tail (s_action s)) (tail (s_item s)) (tail (s_data s)) (active s)).
Proof.
  intros H. destruct s as [sa si sd ac].
  pose proof (H MAction) as Ha. pose proof (H MItem) as Hi. pose proof (H MData) as Hd.
  simpl in *. destruct sa; [done|]. destruct si; [done|]. destruct sd; [done|].
  reflexivity.
Qed.

Lemma pops_enter (ps : list plugin) s (qa qi qd : list plugin) :
  length ps = length qa -> length ps = length qi -> length ps = length qd ->
  pops plugin ps (mkPS (qa ++ s_action s) (qi ++ s_item s) (qd ++ s_data s) (active s)) =
    Some (mkPS (s_action s) (s_item s) (s_data s) (active s)).
Proof.
  revert qa qi qd. induction ps as [|p ps IH]; intros qa qi qd Ha Hi Hd.
  - destruct qa, qi, qd; simpl in *; try lia. reflexivity.
  - destruct qa as [|a qa], qi as [|i qi], qd as [|d qd]; simpl in *; try lia.
    apply IH; lia.
Qed.

Lemma apply_enter_eq ps s :
  apply_enter plugin ps s =
    mkPS (ps ++ s_action s) (ps ++ s_item s) (ps ++ s_data s) (active s ++ rev ps).
Proof.
  set (X := apply_enter plugin ps s).
  transitivity (mkPS (stack_of plugin MAction X) (stack_of plugin MItem X)
                  (stack_of plugin MData X) (active X)); [by destruct X|].
  unfold X. rewrite !stack_apply_enter, active_apply_enter. reflexivity.
Qed.

(** X7: inside [Plugins.apply] with plugins [p1 ... pn], a hooked call runs
    [p1]'s hook outermost, then [p2]'s, ..., then the hooks that were
    active before; [active_plugins] gains the plugins in reverse order. *)
Theorem plugins_apply_nesting ps s m (resolve : A -> B) :
  stack_call plugin A B hook m (apply_enter plugin ps s) resolve =
    fold_right (fun p k => hook p m k) (stack_call plugin A B hook m s resolve) ps /\
  active (apply_enter plugin ps s) = active s ++ rev ps.
Proof.
  split; [|apply active_apply_enter].
  unfold stack_call. by rewrite stack_apply_enter, fold_right_app.
Qed.

(** X8: leaving [Plugins.apply] restores every stack but removes only the
    last entry of [active_plugins] whatever the number of plugins applied,
    and raises [IndexError] when that list is empty. *)
Theorem plugins_apply_exit ps s :
  apply_exit plugin ps (apply_enter plugin ps s) =
    match active s ++ rev ps with
    | [] => None
    | _ :: _ => Some (mkPS (s_action s) (s_item s) (s_data s) (removelast (active s ++ rev ps)))
    end.
Proof.
  unfold apply_exit. rewrite apply_enter_eq.
  pose proof (pops_enter (rev ps) (mkPS (s_action s) (s_item s) (s_data s) (active s ++ rev ps))
    ps ps ps) as H. rewrite length_rev in H. cbn [s_action s_item s_data active] in H.
  rewrite H by done. simpl. by destruct (active s ++ rev ps).
Qed.

End Facts.
End PlugsFacts.

Module RegistryFacts.
Import Registry.
Section Facts.
Context {T : Type}.

Lemma last_cons_opt {X} (x : X) (l : list X) :
  last (x :: l) = match last l with Some y => Some y | None => Some x end.
Proof.
  induction l as [|y l IH]; [done|]. simpl in *.
  destruct l as [|z l]; done.
Qed.

(** X9: after a sequence of [Application.action] registrations, the default
    action is the name of the last registration with [default=True], or, if
    there is none, the previous default, or else the first name registered. *)
Lemma register_all_default (cs : list (regcall T)) (r : reg T) :
  r_default (register_all cs r) =
    match last (List.filter rc_default cs) with
    | Some c => Some (reg_name c)
    | None => match r_default r with
              | Some n => Some n
              | None => reg_name <$> head cs
              end
    end.
Proof.
  revert r. induction cs as [|c cs IH]; intros r; simpl.
  - by destruct (r_default r).
  - rewrite IH. simpl.
    destruct (rc_default c) eqn:Hd; simpl.
    + rewrite last_cons_opt. by destruct (last (List.filter rc_default cs)).
    + destruct (last (List.filter rc_default cs)); [done|].
      destruct (r_default r); simpl; reflexivity.
Qed.

(** X10: after a sequence of [Application.action] registrations, a name maps
    to the action of its last registration (a later one replaces an
    earlier one of the same name), and other names keep their entries. *)
Lemma register_all_actions (cs : list (regcall T)) (r : reg T) n :
  r_actions (register_all cs r) !! n =
    match last (List.filter (fun c => String.eqb (reg_name c) n) cs) with
    | Some c => Some (rc_action c)
    | None => r_actions r !! n
    end.
Proof.
  revert r. induction cs as [|c cs IH]; intros r; simpl; [done|].
  rewrite IH. simpl.
  destruct (String.eqb_spec (reg_name c) n) as [<-|Hne]; simpl.
  - rewrite last_cons_opt.
    destruct (last (List.filter _ cs)); [done|]. by rewrite lookup_insert_eq.
  - destruct (last (List.filter _ cs)); [done|]. by rewrite lookup_insert_ne.
Qed.

End Facts.
End RegistryFacts.

(* ------------------------------------------------------------------ *)

Module DictFacts.
Import Dict.
Section Facts.
Context {X : Type}.
Implicit Types (d u : list (string * X)).

Lemma alookup_app k d1 d2 :
  alookup k (d1 ++ d2) = match alookup k d1 with Some v => Some v | None => alookup k d2 end.
Proof.
  induction d1 as [|[k' v'] d1 IH]; [done|]. simpl.
  destruct (String.eqb k k'); [done|]. apply IH.
Qed.

Lemma alookup_d_set_eq k v d : alookup k (d_set k v d) = Some v.
Proof.
  induction d as [|[k' v'] d IH]; simpl; [by rewrite String.eqb_refl|].
  destruct (String.eqb_spec k k') as [->|Hne]; simpl.
  - by rewrite String.eqb_refl.
  - apply String.eqb_neq in Hne. by rewrite Hne.
Qed.

Lemma alookup_d_set_ne k k' v d : k' <> k -> alookup k' (d_set k v d) = alookup k' d.
Proof.
  intros Hne. induction d as [|[k2 v2] d IH]; simpl.
  - by apply String.eqb_neq in Hne as ->.
  - destruct (String.eqb_spec k k2) as [->|Hne2]; simpl.
    + by apply String.eqb_neq in Hne as ->.
    + destruct (String.eqb k' k2); [done|]. apply IH.
Qed.

Lemma alookup_None k d : alookup k d = None <-> k ∉ map fst d.
Proof.
  induction d as [|[k' v'] d IH]; simpl.
  - split; [intros _ H; by apply elem_of_nil in H|done].
  - rewrite elem_of_cons. destruct (String.eqb_spec k k') as [->|Hne].
    + split; [done|]. intros H. exfalso. apply H. by left.
    + rewrite IH. split; [intros H [H'|H']; [done|by apply H]|].
      intros H H'. apply H. by right.
Qed.

Lemma alookup_Some_in k d : is_Some (alookup k d) <-> k ∈ map fst d.
Proof.
  rewrite <- not_eq_None_Some. rewrite alookup_None.
  destruct (decide (k ∈ map fst d)); tauto.
Qed.

Lemma keys_d_set k v d x : x ∈ map fst (d_set k v d) -> x = k \/ x ∈ map fst d.
Proof.
  induction d as [|[k' v'] d IH]; simpl.
  - rewrite list_elem_of_singleton. by left.
  - destruct (String.eqb k k'); simpl; rewrite !elem_of_cons.
    + intros [->|H]; [by left|by right; right].
    + intros [->|H]; [by right; left|]. destruct (IH H); [by left|by right; right].
Qed.

Lemma NoDup_d_set k v d : NoDup (map fst d) -> NoDup (map fst (d_set k v d)).
Proof.
  induction d as [|[k' v'] d IH]; simpl; intros Hnd.
  - constructor; [apply not_elem_of_nil|constructor].
  - apply NoDup_cons in Hnd as [Hn Hnd].
    destruct (String.eqb_spec k k') as [->|Hne]; simpl; constructor; auto.
    intros H. apply keys_d_set in H as [H|H]; [done|done].
Qed.

Lemma keys_d_update d u x : x ∈ map fst (d_update d u) -> x ∈ map fst d \/ x ∈ map fst u.
Proof.
  revert d. induction u as [|[k v] u IH]; intros d; simpl; [by left|].
  intros H. apply IH in H as [H|H].
  - apply keys_d_set in H as [->|H]; [right; by left|by left].
  - right. by right.
Qed.

Lemma NoDup_d_update d u : NoDup (map fst d) -> NoDup (map fst (d_update d u)).
Proof.
  revert d. induction u as [|[k v] u IH]; intros d Hd; simpl; [done|].
  apply IH, NoDup_d_set, Hd.
Qed.

Lemma alookup_d_update d u k :
  NoDup (map fst u) ->
  alookup k (d_update d u) = match alookup k u with Some v => Some v | None => alookup k d end.
Proof.
  revert d. induction u as [|[k' v'] u IH]; intros d Hnd; simpl; [done|].
  apply NoDup_cons in Hnd as [Hn Hnd]. rewrite IH by done.
  destruct (String.eqb_spec k k') as [->|Hne].
  - assert (alookup k' u = None) as -> by (by apply alookup_None).
    apply alookup_d_set_eq.
  - destruct (alookup k u); [done|]. by apply alookup_d_set_ne.
Qed.

Lemma alookup_aremove k k' d :
  alookup k' (aremove k d) = if String.eqb k k' then None else alookup k' d.
Proof.
  induction d as [|[k2 v2] d IH]; simpl; [by destruct (String.eqb k k')|].
  destruct (String.eqb_spec k k2) as [->|Hne]; simpl.
  - rewrite IH. destruct (String.eqb_spec k2 k') as [->|Hne']; [done|].
    assert (String.eqb k' k2 = false) as -> by (apply String.eqb_neq; congruence). done.
  - rewrite IH. destruct (String.eqb_spec k k') as [->|Hne']; [|done].
    assert (String.eqb k' k2 = false) as -> by (apply String.eqb_neq; congruence). done.
Qed.

Lemma in_keys_alookup kv d : kv ∈ d -> is_Some (alookup kv.1 d).
Proof.
  intros H. apply alookup_Some_in. apply list_elem_of_fmap. by exists kv.
Qed.

End Facts.
End DictFacts.

Module ArgsFacts.
Import Dict DictFacts Args.
Section Facts.
Context {V : Type}.
Implicit Types (ps : list (aparam (V:=V))) (K M : list (string * V)).

Lemma in_param_order_cons p ps K :
  in_param_order (p :: ps) K =
    match alookup (apname p) K with
    | Some v => (apname p, v) :: in_param_order ps K
    | None => in_param_order ps K
    end.
Proof. unfold in_param_order. simpl. by destruct (alookup (apname p) K). Qed.

Lemma alookup_in_param_order ps K k :
  NoDup (names ps) ->
  alookup k (in_param_order ps K) = if decide (k ∈ names ps) then alookup k K else None.
Proof.
  unfold names. induction ps as [|p ps IH]; intros Hnd.
  - simpl. destruct (decide (k ∈ [])) as [H|]; [by apply elem_of_nil in H|done].
  - apply NoDup_cons in Hnd as [Hn Hnd]. rewrite in_param_order_cons. cbn [map].
    destruct (alookup (apname p) K) eqn:Hp; cbn [alookup].
    + destruct (String.eqb_spec k (apname p)) as [->|Hne].
      * rewrite decide_True by (by left). done.
      * rewrite IH by done. destruct (decide (k ∈ map apname ps)) as [H|H].
        -- rewrite decide_True by (by right). done.
        -- rewrite decide_False; [done|]. rewrite elem_of_cons. tauto.
    + rewrite IH by done. destruct (decide (k ∈ map apname ps)) as [H|H].
      * rewrite decide_True by (by right). done.
      * destruct (decide (k ∈ apname p :: map apname ps)) as [H'|H']; [|done].
        apply elem_of_cons in H' as [->|H']; [by rewrite Hp|done].
Qed.

Lemma keys_in_param_order ps K : Forall (fun kv => kv.1 ∈ names ps) (in_param_order ps K).
Proof.
  unfold names. induction ps as [|p ps IH]; [constructor|].
  rewrite in_param_order_cons.
  destruct (alookup (apname p) K); cbn [map].
  - constructor; [by left|]. eapply Forall_impl; [apply IH|]. intros x H; by right.
  - eapply Forall_impl; [apply IH|]. intros x H; by right.
Qed.

Lemma NoDup_in_param_order ps K : NoDup (names ps) -> NoDup (map fst (in_param_order ps K)).
Proof.
  unfold names. induction ps as [|p ps IH]; intros Hnd; [constructor|].
  apply NoDup_cons in Hnd as [Hn Hnd]. rewrite in_param_order_cons.
  destruct (alookup (apname p) K); cbn [map]; [|by apply IH].
  constructor; [|by apply IH].
  intros H. apply list_elem_of_fmap in H as ([k w] & Heq & H). simpl in Heq. subst k.
  pose proof (keys_in_param_order ps K) as HF. rewrite Forall_forall in HF.
  by apply HF in H.
Qed.

Lemma in_param_order_ext ps K1 K2 :
  (forall q, q ∈ names ps -> alookup q K1 = alookup q K2) ->
  in_param_order ps K1 = in_param_order ps K2.
Proof.
  unfold names. induction ps as [|p ps IH]; intros H; [done|].
  rewrite !in_param_order_cons.
  rewrite (H (apname p)) by (by left).
  rewrite IH; [done|]. intros q Hq. apply H. by right.
Qed.

Lemma bind_partial_kw ps K :
  NoDup (names ps) -> Forall (fun kv => kv.1 ∈ names ps) K ->
  bind_partial ps [] K = Some (in_param_order ps K).
Proof.
  unfold names. revert K. induction ps as [|p ps IH]; intros K Hnd HK.
  - simpl. destruct K as [|kv K]; [done|]. apply Forall_cons in HK as [H _].
    by apply elem_of_nil in H.
  - apply NoDup_cons in Hnd as [Hn Hnd]. rewrite in_param_order_cons. cbn [bind_partial].
    destruct (alookup (apname p) K) as [v|] eqn:Hp.
    + rewrite IH; [|done|].
      * simpl. f_equal. f_equal. apply in_param_order_ext.
        intros q Hq. rewrite alookup_aremove.
        destruct (String.eqb_spec (apname p) q) as [<-|]; [contradiction|done].
      * rewrite Forall_forall in HK |- *. intros [k w] Hin.
        unfold aremove in Hin. apply list_elem_of_In, filter_In in Hin as [Hin Hk].
        apply list_elem_of_In in Hin.
        simpl in Hk. apply negb_true_iff, String.eqb_neq in Hk.
        apply HK in Hin. simpl in Hin |- *.
        apply elem_of_cons in Hin as [->|Hin]; [done|done].
    + apply IH; [done|]. rewrite Forall_forall in HK |- *. intros kv Hin.
      pose proof (HK kv Hin) as Hk. apply elem_of_cons in Hk as [Hk|Hk]; [|done].
      exfalso. apply in_keys_alookup in Hin. rewrite Hk, Hp in Hin. by destruct Hin.
Qed.

Lemma bind_partial_none ps K kv :
  kv ∈ K -> kv.1 ∉ names ps -> bind_partial ps [] K = None.
Proof.
  unfold names. revert K. induction ps as [|p ps IH]; intros K Hin Hn; simpl.
  - destruct K; [by apply elem_of_nil in Hin|done].
  - destruct (alookup (apname p) K).
    + erewrite IH; [done| |].
      * unfold aremove. apply list_elem_of_In, filter_In. split; [by apply list_elem_of_In|].
        apply negb_true_iff, String.eqb_neq. intros He. apply Hn. rewrite <- He. by left.
      * intros H. apply Hn. by right.
    + apply IH; [done|]. intros H. apply Hn. by right.
Qed.

Lemma bind_partial_nil ps : bind_partial ps [] [] = Some [].
Proof. induction ps as [|p ps IH]; simpl; [done|]. apply IH. Qed.

Lemma bind_partial_pos ps (args : list V) :
  length args <= length ps ->
  bind_partial ps args [] = Some (zip (names ps) args).
Proof.
  unfold names. revert args. induction ps as [|p ps IH]; intros args Hl; simpl.
  - destruct args; simpl in *; [done|lia].
  - destruct args as [|a args]; simpl.
    + by rewrite bind_partial_nil.
    + rewrite IH by (simpl in Hl; lia). reflexivity.
Qed.

Lemma keys_zip (ns : list string) (args : list V) x : x ∈ map fst (zip ns args) -> x ∈ ns.
Proof.
  revert args. induction ns as [|n ns IH]; intros [|a args]; simpl; try (intros H; by apply elem_of_nil in H).
  rewrite !elem_of_cons. intros [->|H]; [by left|right; eauto].
Qed.


End Facts.
End ArgsFacts.

(* ------------------------------------------------------------------ *)

Module ArgsFacts2.
Import Dict DictFacts Args ArgsFacts ArgsInvariants.
Section Facts.
Context {V : Type}.
Implicit Types (ps : list (aparam (V:=V))) (K M X : list (string * V)).

Lemma ba_kwargs_cons p ps M :
  ba_kwargs (p :: ps) M =
    match alookup (apname p) M with
    | Some _ => ba_kwargs ps M
    | None => in_param_order ps M
    end.
Proof. reflexivity. Qed.

Lemma ba_args_cons p ps M :
  ba_args (p :: ps) M =
    match alookup (apname p) M with
    | Some v => v :: ba_args ps M
    | None => []
    end.
Proof. reflexivity. Qed.

Lemma keys_ba_kwargs ps M : Forall (fun kv => kv.1 ∈ names ps) (ba_kwargs ps M).
Proof.
  unfold names. induction ps as [|p ps IH]; [constructor|].
  rewrite ba_kwargs_cons. destruct (alookup (apname p) M).
  - eapply Forall_impl; [apply IH|]. intros x H; by right.
  - eapply Forall_impl; [apply keys_in_param_order|]. intros x H; by right.
Qed.

Lemma NoDup_ba_kwargs ps M : NoDup (names ps) -> NoDup (map fst (ba_kwargs ps M)).
Proof.
  unfold names. induction ps as [|p ps IH]; intros Hnd; [constructor|].
  apply NoDup_cons in Hnd as [_ Hnd].
  rewrite ba_kwargs_cons. destruct (alookup (apname p) M); [by apply IH|].
  by apply NoDup_in_param_order.
Qed.

Lemma length_ba_args ps M : length (ba_args ps M) <= length ps.
Proof.
  induction ps as [|p ps IH]; [simpl; lia|].
  rewrite ba_args_cons. destruct (alookup (apname p) M); simpl; lia.
Qed.

Lemma Forall_keys_alookup_None (k : string) K (ns : list string) :
  Forall (fun kv => kv.1 ∈ ns) K -> k ∉ ns -> alookup k K = None.
Proof.
  intros HF Hk. apply alookup_None. intros Hin.
  apply list_elem_of_fmap in Hin as ([k' w] & Heq & Hin). simpl in Heq. subst k'.
  rewrite Forall_forall in HF. by apply HF in Hin.
Qed.

Lemma Forall_keys_d_update (ns : list string) K X :
  Forall (fun kv => kv.1 ∈ ns) K -> Forall (fun kv => kv.1 ∈ ns) X ->
  Forall (fun kv => kv.1 ∈ ns) (d_update K X).
Proof.
  intros HK HX. apply Forall_forall. intros kv Hin.
  assert (kv.1 ∈ map fst (d_update K X)) as Hk
    by (apply list_elem_of_fmap; by exists kv).
  apply keys_d_update in Hk as [Hk|Hk];
    apply list_elem_of_fmap in Hk as (kv' & -> & Hin');
    [rewrite Forall_forall in HK; by apply HK|rewrite Forall_forall in HX; by apply HX].
Qed.

Lemma ba_split ps M q :
  NoDup (names ps) -> q ∈ names ps ->
  match alookup q (ba_kwargs ps M) with
  | Some v => Some v
  | None => alookup q (zip (names ps) (ba_args ps M))
  end = alookup q M.
Proof.
  unfold names. induction ps as [|p ps IH]; intros Hnd Hq; [by apply elem_of_nil in Hq|].
  pose proof Hnd as Hnd'. apply NoDup_cons in Hnd as [Hn Hnd].
  rewrite ba_kwargs_cons, ba_args_cons.
  destruct (alookup (apname p) M) as [v|] eqn:Hp.
  - change (zip (map apname (p :: ps)) (v :: ba_args ps M))
      with ((apname p, v) :: zip (map apname ps) (ba_args ps M)).
    cbn [alookup].
    destruct (String.eqb_spec q (apname p)) as [->|Hne].
    + rewrite (Forall_keys_alookup_None _ _ _ (keys_ba_kwargs ps M) Hn). done.
    + apply elem_of_cons in Hq as [Hq|Hq]; [done|]. by apply IH.
  - rewrite zip_with_nil_r. rewrite alookup_in_param_order by done.
    case_decide as H.
    + by destruct (alookup q M).
    + apply elem_of_cons in Hq as [->|Hq]; [by rewrite Hp|done].
Qed.

(** The positional and keyword split of a binding, with the keywords [X]
    merged in, binds back by [bind_partial] to the binding and [X]. *)
Lemma bind_partial_split ps M X :
  NoDup (names ps) -> Forall (fun kv => kv.1 ∈ names ps) X -> NoDup (map fst X) ->
  (forall k, is_Some (alookup k X) -> alookup k M = None) ->
  bind_partial ps (ba_args ps M) (d_update (ba_kwargs ps M) X) =
    Some (in_param_order ps (M ++ X)).
Proof.
  unfold names. induction ps as [|p ps IH]; intros Hnd HX HXd Hdis.
  - destruct X as [|kv X]; [reflexivity|].
    apply Forall_cons in HX as [H _]. by apply elem_of_nil in H.
  - pose proof Hnd as Hnd'. apply NoDup_cons in Hnd as [Hn Hnd].
    rewrite ba_kwargs_cons, ba_args_cons.
    destruct (alookup (apname p) M) as [v|] eqn:Hp.
    + assert (alookup (apname p) X = None) as HpX.
      { destruct (alookup (apname p) X) eqn:E; [|done].
        exfalso. assert (is_Some (alookup (apname p) X)) as Hs by (rewrite E; eauto).
        apply Hdis in Hs. congruence. }
      cbn [bind_partial].
      rewrite alookup_d_update by done. rewrite HpX.
      rewrite (Forall_keys_alookup_None _ _ _ (keys_ba_kwargs ps M) Hn).
      rewrite IH; [|done| |done|done].
      * simpl. rewrite alookup_app, Hp. done.
      * rewrite Forall_forall in HX |- *. intros kv Hin.
        pose proof (HX kv Hin) as Hk. apply elem_of_cons in Hk as [Hk|Hk]; [|done].
        exfalso. apply in_keys_alookup in Hin. rewrite Hk, HpX in Hin. by destruct Hin.
    + rewrite bind_partial_kw; [|done|].
      * f_equal. apply in_param_order_ext. intros q Hq.
        rewrite alookup_d_update by done. rewrite alookup_app.
        destruct (alookup q X) as [w|] eqn:Hx.
        -- rewrite Hdis; [done|]. rewrite Hx; eauto.
        -- rewrite alookup_in_param_order by done.
           case_decide as H.
           ++ by destruct (alookup q M).
           ++ apply elem_of_cons in Hq as [->|Hq]; [by rewrite Hp|done].
      * apply Forall_keys_d_update; [|done].
        eapply Forall_impl; [apply keys_in_param_order|]. intros x H; by right.
Qed.

(** The same split, bound back by [bind_args] (as [parse_args] does). *)
Lemma bind_args_split ps M X :
  NoDup (names ps) -> Forall (fun kv => kv.1 ∈ names ps) X -> NoDup (map fst X) ->
  bind_args ps (ba_args ps M) (d_update (ba_kwargs ps M) X) =
    Some (in_param_order ps (X ++ M)).
Proof.
  intros Hnd HX HXd. unfold bind_args.
  rewrite bind_partial_pos by (apply length_ba_args). simpl.
  rewrite bind_partial_kw; [|done|].
  - f_equal. apply in_param_order_ext. intros q Hq.
    rewrite alookup_d_update by (apply NoDup_d_update, NoDup_ba_kwargs, Hnd).
    rewrite alookup_d_update by done. rewrite alookup_app.
    destruct (alookup q X); [done|]. by apply ba_split.
  - apply Forall_keys_d_update; [|apply Forall_keys_d_update; [apply keys_ba_kwargs|done]].
    apply Forall_forall. intros kv Hin. apply keys_zip with (ba_args ps M).
    apply list_elem_of_fmap. by exists kv.
Qed.


Lemma alookup_snoc {Y} k (P : list (string * Y)) n f :
  alookup k (P ++ [(n, f)]) =
    match alookup k P with Some g => Some g | None => if String.eqb k n then Some f else None end.
Proof. rewrite alookup_app. destruct (alookup k P); [done|]. simpl. by destruct (String.eqb k n). Qed.

Lemma keys_d_set_old {Y} k (v : Y) d x : x ∈ map fst d -> x ∈ map fst (d_set k v d).
Proof.
  induction d as [|[k' v'] d IH]; simpl; [intros H; by apply elem_of_nil in H|].
  destruct (String.eqb_spec k k') as [->|Hne]; simpl; rewrite !elem_of_cons; [done|].
  intros [->|H]; [by left|right; by apply IH].
Qed.

Lemma keys_d_set_new {Y} k (v : Y) (d : list (string * Y)) : k ∈ map fst (d_set k v d).
Proof.
  induction d as [|[k' v'] d IH]; simpl; [by left|].
  destruct (String.eqb_spec k k') as [->|Hne]; simpl; rewrite !elem_of_cons; [by left|by right].
Qed.

Lemma keys_d_update_in {Y} (d u : list (string * Y)) x :
  x ∈ map fst d \/ x ∈ map fst u -> x ∈ map fst (d_update d u).
Proof.
  revert d. induction u as [|[k v] u IH]; intros d; simpl.
  - intros [H|H]; [done|by apply elem_of_nil in H].
  - intros H. apply IH. rewrite elem_of_cons in H. destruct H as [H|[->|H]].
    + left. by apply keys_d_set_old.
    + left. apply keys_d_set_new.
    + by right.
Qed.

Lemma bind_partial_too_many ps (args : list V) :
  length ps < length args -> bind_partial ps args [] = None.
Proof.
  revert args. induction ps as [|p ps IH]; intros [|a args] Hl; simpl in *; try lia; [done|].
  rewrite IH by lia. done.
Qed.

Lemma bind_args_ok ps (args : list V) kws :
  NoDup (names ps) -> length args <= length ps ->
  Forall (fun kv => kv.1 ∈ names ps) kws ->
  bind_args ps args kws = Some (in_param_order ps (d_update (zip (names ps) args) kws)).
Proof.
  intros Hnd Hl HK. unfold bind_args. rewrite bind_partial_pos by done. simpl.
  apply bind_partial_kw; [done|]. apply Forall_keys_d_update; [|done].
  apply Forall_forall. intros kv Hin. apply keys_zip with args.
  apply list_elem_of_fmap. by exists kv.
Qed.

Section Providers.
Variable py_none : V.

Lemma prov_step_inv D P st nf :
  prov_inv py_none D P st -> alookup nf.1 P = None ->
  prov_inv py_none D (P ++ [nf]) (prov_step py_none st nf).
Proof.
  destruct st as [b ex], nf as [n f]. intros (Hb & Hex & Hnd) HnP. cbn [fst snd] in *.
  unfold prov_step. cbn [fst snd]. rewrite (Hb n), HnP.
  destruct (alookup n D) as [x|] eqn:HD.
  - split; [|split]; [intros k; cbn [fst snd]..|done].
    + rewrite alookup_snoc. destruct (String.eqb_spec k n) as [->|Hne].
      * rewrite alookup_d_set_eq, HnP, HD. done.
      * rewrite alookup_d_set_ne by done. rewrite Hb. by destruct (alookup k P).
    + rewrite alookup_snoc, Hex. destruct (String.eqb_spec k n) as [->|Hne].
      * by rewrite HnP, HD.
      * by destruct (alookup k P).
  - split; [|split]; [intros k; cbn [fst snd]..|by apply NoDup_d_set].
    + rewrite alookup_snoc, Hb. destruct (String.eqb_spec k n) as [->|Hne].
      * by rewrite HnP, HD.
      * by destruct (alookup k P).
    + rewrite alookup_snoc. destruct (String.eqb_spec k n) as [->|Hne].
      * rewrite alookup_d_set_eq, HnP, HD. done.
      * rewrite alookup_d_set_ne by done. rewrite Hex. by destruct (alookup k P).
Qed.

Lemma prov_fold_inv D P Q st :
  prov_inv py_none D P st -> NoDup (map fst (P ++ Q)) ->
  prov_inv py_none D (P ++ Q) (fold_left (prov_step py_none) Q st).
Proof.
  revert P st. induction Q as [|nf Q IH]; intros P st Hinv Hnd.
  - by rewrite app_nil_r.
  - cbn [fold_left]. replace (P ++ nf :: Q) with ((P ++ [nf]) ++ Q) by (by rewrite <- app_assoc).
    apply IH; [|by rewrite <- app_assoc].
    apply prov_step_inv; [done|]. apply alookup_None.
    rewrite map_app in Hnd. apply NoDup_app in Hnd as (_ & Hdis & _).
    intros Hin. apply (Hdis nf.1); [done|]. by left.
Qed.

Lemma prov_fold_all D Q :
  NoDup (map fst Q) ->
  prov_inv py_none D Q (fold_left (prov_step py_none) Q (D, [])).
Proof.
  intros Hnd. apply (prov_fold_inv D [] Q); [|done].
  split; [|split]; [intros k; simpl; by destruct (alookup k D)..|constructor].
Qed.

Lemma prov_ex_keys D Q st k :
  prov_inv py_none D Q st -> k ∈ map fst st.2 -> k ∈ map fst Q.
Proof.
  intros (_ & Hex & _) Hk. apply alookup_Some_in in Hk. rewrite Hex in Hk.
  apply alookup_Some_in. destruct (alookup k Q); [eauto|]. by destruct Hk.
Qed.

End Providers.

Lemma update_args_kw ps (args : list V) kws xkws :
  update_args ps args kws [] xkws =
    b ← bind_args ps args kws;
    xk ← bind_partial ps [] xkws;
    let '(b, kw) := fold_left upd_step (ba_kwargs ps xk) (b, []) in
    Some (ba_args ps b, d_update (ba_kwargs ps b) kw).
Proof.
  unfold update_args. destruct (bind_args ps args kws); [|done]. simpl.
  rewrite bind_partial_nil. reflexivity.
Qed.

Lemma in_param_order_absent ps (e : string) (v : V) :
  e ∉ names ps -> in_param_order ps [(e, v)] = [].
Proof.
  unfold names. induction ps as [|p ps IH]; intros He; [done|].
  rewrite in_param_order_cons. cbn [alookup].
  destruct (String.eqb_spec (apname p) e) as [Heq|Hne].
  - exfalso. apply He. rewrite <- Heq. left.
  - apply IH. intros H. apply He. by right.
Qed.


Lemma in_param_order_single ps (e : string) (v : V) :
  NoDup (names ps) -> e ∈ names ps -> in_param_order ps [(e, v)] = [(e, v)].
Proof.
  unfold names. induction ps as [|p ps IH]; intros Hnd He; [by apply elem_of_nil in He|].
  apply NoDup_cons in Hnd as [Hn Hnd].
  rewrite in_param_order_cons. cbn [alookup].
  destruct (String.eqb_spec (apname p) e) as [Heq|Hne].
  - rewrite Heq in Hn |- *. by rewrite in_param_order_absent.
  - apply IH; [done|]. apply elem_of_cons in He as [->|He]; [done|done].
Qed.

Section Theorems.
Variable py_none : V.


(** X12: for a function whose parameters are all positional-or-keyword
    (no [*args] or [**kwargs]), [bind_args] raises [TypeError] when there
    are more positional arguments than parameters, or a keyword names no
    parameter. *)
Theorem bind_args_type_error ps (args : list V) kws :
  (length ps < length args \/ exists kv, kv ∈ kws /\ kv.1 ∉ names ps) ->
  bind_args ps args kws = None.
Proof.
  unfold bind_args. intros [Hl|(kv & Hin & Hn)].
  - by rewrite bind_partial_too_many.
  - destruct (bind_partial ps args []) as [pos|]; [|done]. simpl.
    assert (kv.1 ∈ map fst (d_update pos kws)) as Hk.
    { apply keys_d_update_in. right. apply list_elem_of_fmap. by exists kv. }
    apply list_elem_of_fmap in Hk as (kv' & Heq & Hin').
    apply (bind_partial_none _ _ kv'); [done|]. by rewrite <- Heq.
Qed.

(** X13: for providers registered on parameters, calling the function with
    the arguments [parse_args] returns binds each parameter with a provider
    to the provider's result on its bound or default value (or [None]),
    and every other parameter to its bound or default value. *)
Theorem parse_args_providers ps (provs : providers) (args : list V) kws :
  NoDup (names ps) -> length args <= length ps ->
  Forall (fun kv => kv.1 ∈ names ps) kws ->
  NoDup (map fst provs) -> Forall (fun nf => nf.1 ∈ names ps) provs ->
  exists b0 a kw B,
    bind_args ps args kws = Some b0 /\
    parse_args py_none ps provs args kws = Some (a, kw) /\
    bind_args ps a kw = Some B /\
    forall n, n ∈ names ps ->
      alookup n B =
        match alookup n provs with
        | Some f => Some (f (match alookup n (apply_defaults ps b0) with
                             | Some x => x | None => py_none end))
        | None => alookup n (apply_defaults ps b0)
        end.
Proof.
  intros Hnd Hl HK Hpd Hpk.
  pose proof (bind_args_ok ps args kws Hnd Hl HK) as Hb0.
  set (b0 := in_param_order ps (d_update (zip (names ps) args) kws)) in Hb0.
  set (D := apply_defaults ps b0).
  destruct (fold_left (prov_step py_none) provs (D, [])) as [b ex] eqn:Hf.
  pose proof (prov_fold_all py_none D provs Hpd) as Hinv. rewrite Hf in Hinv.
  assert (Forall (fun kv => kv.1 ∈ names ps) ex) as Hexk.
  { apply Forall_forall. intros kv Hin.
    assert (kv.1 ∈ map fst provs) as Hp.
    { eapply (prov_ex_keys py_none D provs (b, ex)); [done|].
      apply list_elem_of_fmap. by exists kv. }
    apply list_elem_of_fmap in Hp as (nf & -> & Hnf).
    rewrite Forall_forall in Hpk. by apply Hpk. }
  destruct Hinv as (Hb & Hex & Hexd). cbn [fst snd] in Hb, Hex, Hexd.
  exists b0, (ba_args ps b), (d_update (ba_kwargs ps b) ex), (in_param_order ps (ex ++ b)).
  split; [done|]. split.
  { unfold parse_args, parse_bound. rewrite Hb0. simpl. fold D. by rewrite Hf. }
  split; [by apply bind_args_split|].
  intros n Hn. rewrite alookup_in_param_order by done. rewrite decide_True by done.
  rewrite alookup_app, Hex, Hb. fold D.
  destruct (alookup n provs), (alookup n D); done.
Qed.

(** X14: for a function whose parameters are all positional-or-keyword
    (no [*args] or [**kwargs]), [update_args(args, kwargs, action=name)]
    raises [TypeError] when the function has no parameter called
    [action]. *)
Theorem update_args_unknown_key ps (args : list V) kws e v :
  e ∉ names ps -> update_args ps args kws [] [(e, v)] = None.
Proof.
  intros He. rewrite update_args_kw. destruct (bind_args ps args kws); [|done]. simpl.
  rewrite (bind_partial_none ps [(e, v)] (e, v)); [done|by left|done].
Qed.


(** X16: when the action parameter is not the first parameter,
    [update_args(args, kwargs, action=name)] returns arguments that bind the
    action parameter to [name] and every other parameter as before. *)
Theorem update_args_later_param p0 ps' (args : list V) kws e v b0 :
  NoDup (names (p0 :: ps')) -> e ∈ names ps' ->
  bind_args (p0 :: ps') args kws = Some b0 ->
  exists a kw B,
    update_args (p0 :: ps') args kws [] [(e, v)] = Some (a, kw) /\
    bind_args (p0 :: ps') a kw = Some B /\
    alookup e B = Some v /\
    forall n, n ∈ names (p0 :: ps') -> n <> e -> alookup n B = alookup n b0.
Proof.
  intros Hnd He Hb0. set (ps := p0 :: ps') in *.
  pose proof Hnd as Hnd'. unfold ps, names in Hnd'. cbn [map] in Hnd'.
  apply NoDup_cons in Hnd' as [Hn Hnd'].
  assert (e ∈ names ps) as He' by (unfold ps, names; cbn [map]; by right).
  assert (apname p0 <> e) as Hne by (intros <-; done).
  assert (bind_partial ps [] [(e, v)] = Some [(e, v)]) as Hx.
  { rewrite bind_partial_kw; [|done|].
    - f_equal. by apply in_param_order_single.
    - by repeat constructor. }
  assert (ba_kwargs ps [(e, v)] = [(e, v)]) as Hk.
  { unfold ps. rewrite ba_kwargs_cons. cbn [alookup].
    apply String.eqb_neq in Hne as ->. by apply in_param_order_single. }
  set (b' := match alookup e b0 with Some _ => d_set e v b0 | None => b0 end).
  exists (ba_args ps b'), (d_update (ba_kwargs ps b') [(e, v)]),
    (in_param_order ps ([(e, v)] ++ b')).
  split; [|split; [|split]].
  - rewrite update_args_kw, Hb0, Hx. cbn -[ba_kwargs ba_args d_update]. rewrite Hk. reflexivity.
  - apply bind_args_split; [done| |].
    + by repeat constructor.
    + repeat constructor. apply not_elem_of_nil.
  - rewrite alookup_in_param_order by done. rewrite decide_True by done.
    simpl. by rewrite String.eqb_refl.
  - intros n Hn' Hne'. rewrite alookup_in_param_order by done. rewrite decide_True by exact Hn'.
    simpl. pose proof Hne' as Hne2. apply String.eqb_neq in Hne2 as ->. unfold b'.
    destruct (alookup e b0); [|done]. by apply alookup_d_set_ne.
Qed.

End Theorems.

End Facts.
End ArgsFacts2.

(* ------------------------------------------------------------------ *)

Module LazyHeapFacts.
Import LazyEngine LazyHeap.
Section Facts.
Context {fn_t : Type}.
Variable apply_fn : fn_t -> list (pyval fn_t) -> list (string * pyval fn_t) -> pyval fn_t.
Variable getattr_fn : pyval fn_t -> string -> fn_t.

Lemma lazy_await_fold (q : queue (fn_t:=fn_t)) :
  lazy_await apply_fn getattr_fn (PLazy q) =
    fold_left (queue_step apply_fn getattr_fn) q (PLazy q).
Proof.
  cbn [lazy_await]. generalize (@PLazy fn_t q) as cur.
  induction q as [|[[t args] kws] q IH]; intros cur; [done|].
  cbn [fold_left]. rewrite <- IH. f_equal. cbn [queue_step]. f_equal. f_equal.
  apply map_ext. intros [k v]. by destruct v.
Qed.

Lemma heap_lookup_insert (h : gmap nat (queue (fn_t:=fn_t))) r (q : queue (fn_t:=fn_t)) : <[r:=q]> h !! r = Some q.
Proof. apply lookup_insert_eq. Qed.

Lemma lazy_await_snoc (f : fn_t) args kws (q : queue) steps :
  lazy_await apply_fn getattr_fn (PLazy (((TFn f, args, kws) :: q) ++ steps)) =
    fold_left (queue_step apply_fn getattr_fn) steps
      (lazy_await apply_fn getattr_fn (PLazy ((TFn f, args, kws) :: q))).
Proof.
  rewrite !lazy_await_fold, fold_left_app. f_equal.
Qed.

(** X18: each special method of a [Lazy] appends its step to the queue of the
    object it is called on and returns that same object: after
    [y = x + 1; z = x * 2], awaiting [z] (or [x], or [y]) applies both
    steps to the result of the original call. *)
Theorem lazy_special_aliasing (h : heap) r (f : fn_t) args kws (q : queue)
    n1 a1 k1 n2 a2 k2 :
  h !! r = Some ((TFn f, args, kws) :: q) ->
  let '(h1, r1) := lazy_special h r n1 a1 k1 in
  let '(h2, r2) := lazy_special h1 r n2 a2 k2 in
  r1 = r /\ r2 = r /\
  await_ref apply_fn getattr_fn h2 r =
    Some (queue_step apply_fn getattr_fn
            (queue_step apply_fn getattr_fn
               (lazy_await apply_fn getattr_fn (PLazy ((TFn f, args, kws) :: q)))
               (TName n1, a1, k1))
            (TName n2, a2, k2)).
Proof.
  intros Hr. unfold lazy_special. rewrite Hr. cbv iota beta.
  rewrite heap_lookup_insert. cbv iota beta.
  split; [done|]. split; [done|].
  unfold await_ref. rewrite heap_lookup_insert. simpl fmap. f_equal.
  transitivity (lazy_await apply_fn getattr_fn
    (PLazy (((TFn f, args, kws) :: q) ++ [(TName n1, a1, k1); (TName n2, a2, k2)]))).
  - do 2 f_equal. simpl. by rewrite <- app_assoc.
  - by rewrite lazy_await_snoc.
Qed.

End Facts.
End LazyHeapFacts.

Module FailFast.
Import Sched Invariants SchedFacts DispatchFacts.






End FailFast.

Module RunExt.
Import Sched SchedFacts DispatchFacts App.


End RunExt.

(* ------------------------------------------------------------------ *)

Module ActionsExt.
Import Actions.


End ActionsExt.

Module ResultsExt.
Import Results.

(** X22: a list, tuple, iterator or async generator returned by an action
    body with no [Action] or [Lazy] element is returned as a list of the
    same elements. *)
Theorem process_action_plain_collections (l : list rv) :
  Forall (fun x => is_action_or_lazy x = false) l ->
  process_action (RList l) = RList l /\ process_action (RTuple l) = RList l /\
  process_action (RIter l) = RList l /\ process_action (RAGen l) = RList l.
Proof.
  intros Hl.
  assert (map (fun s => if is_action_or_lazy s then process_action s else s) l = l) as H.
  { induction l as [|x l IH]; [done|]. apply Forall_cons in Hl as [Hx Hl].
    cbn [map]. rewrite Hx, IH by done. done. }
  cbn [process_action]. by rewrite H.
Qed.

End ResultsExt.

Module ArgsExt.
Import Dict DictFacts Args ArgsFacts.

(** X17: the [argument] decorator raises [AttributeError] exactly when the
    name is neither a parameter nor covered by [**kwargs]; [@x.argument(name)]
    registers the provider under [name] and touches no other entry, while
    the bare [@x.argument] registers nothing. *)
Theorem argument_registration {V} (ps : list (aparam (V:=V))) var_kw (provs : providers) u g :
  (decorate_argument ps var_kw provs u g = None <->
     ((match u with UseName s => s | UseBare f => f end) ∉ names ps) /\ var_kw = false) /\
  (forall provs', decorate_argument ps var_kw provs u g = Some provs' ->
     match u with
     | UseName s => alookup s provs' = Some g /\
                    forall k, k <> s -> alookup k provs' = alookup k provs
     | UseBare _ => provs' = provs
     end).
Proof.
  unfold decorate_argument, has_argument.
  set (n := match u with UseName s => s | UseBare f => f end).
  assert (existsb (fun p => String.eqb (apname p) n) ps = true <-> n ∈ names ps) as Hex.
  { unfold names. rewrite existsb_exists, list_elem_of_fmap. split.
    - intros (p & Hp & Heq). apply String.eqb_eq in Heq. exists p.
      split; [done|]. by apply list_elem_of_In.
    - intros (p & -> & Hp). exists p. split; [by apply list_elem_of_In|].
      apply String.eqb_refl. }
  split.
  - split.
    + intros H. destruct (existsb _ ps) eqn:He, var_kw; simpl in H;
        try (destruct u; discriminate).
      split; [|done]. intros Hn. apply Hex in Hn. congruence.
    + intros [Hn ->].
      assert (existsb (fun p => String.eqb (apname p) n) ps = false) as ->; [|done].
      apply not_true_is_false. intros H. apply Hn, Hex, H.
  - intros provs' H. destruct (existsb _ ps || var_kw); [|done].
    destruct u as [s|f]; injection H as <-; [|done].
    split; [apply alookup_d_set_eq|]. intros k Hk. by apply alookup_d_set_ne.
Qed.

End ArgsExt.

(* ------------------------------------------------------------------ *)

Module Witnesses.
Import Context ContextExt Plugs Dict Args LazyEngine LazyHeap Results.

Lemma item_scope_action_witness :
  ({[ "item" := 1%Z ]} : gmap string Z) <> ∅ /\
  (forall n, ctx_scope (fst (exec_body (take n [CSet "x" 2%Z])
                  (mkCtx (base (mkCtx ∅ None)) (Some {[ "item" := 1%Z ]})))) = SAction) /\
  ctx_scope (fst (process_item_ctx {[ "item" := 1%Z ]} [CSet "x" 2%Z] (mkCtx ∅ None))) =
    ctx_scope (mkCtx (∅ : gmap string Z) None).
Proof.
  assert (H : ({[ "item" := 1%Z ]} : gmap string Z) <> ∅) by (vm_compute; discriminate).
  split; [exact H|]. apply ContextProps.item_scope_action. exact H.
Defined.


Lemma bind_args_type_error_witness :
  (length [mkAParam "a" (None : option Z)] < length [1%Z; 2%Z] \/
   exists kv, kv ∈ ([] : list (string * Z)) /\ kv.1 ∉ names [mkAParam "a" (None : option Z)]) /\
  bind_args [mkAParam "a" (None : option Z)] [1%Z; 2%Z] [] = None.
Proof.
  assert (H : length [mkAParam "a" (None : option Z)] < length [1%Z; 2%Z] \/
   exists kv, kv ∈ ([] : list (string * Z)) /\ kv.1 ∉ names [mkAParam "a" (None : option Z)])
    by (left; simpl; lia).
  split; [exact H|]. exact (ArgsFacts2.bind_args_type_error _ _ _ H).
Defined.

Lemma parse_args_providers_witness :
  let ps := [mkAParam "a" (None : option Z); mkAParam "b" (Some 10%Z)] in
  let provs : providers := [("b", Z.succ)] in
  NoDup (names ps) /\ length [1%Z] <= length ps /\
  Forall (fun kv => kv.1 ∈ names ps) ([] : list (string * Z)) /\
  NoDup (map fst provs) /\ Forall (fun nf => nf.1 ∈ names ps) provs /\
  exists b0 a kw B,
    bind_args ps [1%Z] [] = Some b0 /\
    parse_args 0%Z ps provs [1%Z] [] = Some (a, kw) /\
    bind_args ps a kw = Some B /\
    forall n, n ∈ names ps ->
      alookup n B =
        match alookup n provs with
        | Some f => Some (f (match alookup n (apply_defaults ps b0) with
                             | Some x => x | None => 0%Z end))
        | None => alookup n (apply_defaults ps b0)
        end.
Proof.
  intros ps provs.
  assert (H1 : NoDup (names ps)) by (apply (bool_decide_unpack _); vm_compute; reflexivity).
  assert (H2 : length [1%Z] <= length ps) by (simpl; lia).
  assert (H3 : Forall (fun kv => kv.1 ∈ names ps) ([] : list (string * Z))) by constructor.
  assert (H4 : NoDup (map fst provs)) by (apply (bool_decide_unpack _); vm_compute; reflexivity).
  assert (H5 : Forall (fun nf => nf.1 ∈ names ps) provs)
    by (apply (bool_decide_unpack _); vm_compute; reflexivity).
  do 5 (split; [assumption|]).
  exact (ArgsFacts2.parse_args_providers 0%Z ps provs [1%Z] [] H1 H2 H3 H4 H5).
Defined.

Lemma update_args_unknown_key_witness :
  ("action" ∉ names [mkAParam "x" (None : option Z)]) /\
  update_args [mkAParam "x" (None : option Z)] [1%Z] [] [] [("action", 7%Z)] = None.
Proof.
  assert (H : "action" ∉ names [mkAParam "x" (None : option Z)])
    by (apply (bool_decide_unpack _); vm_compute; reflexivity).
  split; [exact H|]. exact (ArgsFacts2.update_args_unknown_key _ _ _ _ _ H).
Defined.


Lemma update_args_later_param_witness :
  NoDup (names [mkAParam "x" (None : option Z); mkAParam "action" (None : option Z)]) /\
  "action" ∈ names [mkAParam "action" (None : option Z)] /\
  bind_args [mkAParam "x" (None : option Z); mkAParam "action" (None : option Z)] [1%Z] [] = Some [("x", 1%Z)] /\
  exists a kw B,
    update_args [mkAParam "x" (None : option Z); mkAParam "action" (None : option Z)] [1%Z] [] [] [("action", 7%Z)] =
      Some (a, kw) /\
    bind_args [mkAParam "x" (None : option Z); mkAParam "action" (None : option Z)] a kw = Some B /\
    alookup "action" B = Some 7%Z /\
    forall n, n ∈ names [mkAParam "x" (None : option Z); mkAParam "action" (None : option Z)] ->
      n <> "action" -> alookup n B = alookup n [("x", 1%Z)].
Proof.
  assert (H1 : NoDup (names [mkAParam "x" (None : option Z); mkAParam "action" (None : option Z)]))
    by (apply (bool_decide_unpack _); vm_compute; reflexivity).
  assert (H2 : "action" ∈ names [mkAParam "action" (None : option Z)])
    by (apply (bool_decide_unpack _); vm_compute; reflexivity).
  assert (H3 : bind_args [mkAParam "x" (None : option Z); mkAParam "action" (None : option Z)] [1%Z] [] =
                 Some [("x", 1%Z)]) by (vm_compute; reflexivity).
  split; [exact H1|]. split; [exact H2|]. split; [exact H3|].
  exact (ArgsFacts2.update_args_later_param _ _ _ _ _ _ _ H1 H2 H3).
Defined.

Lemma lazy_special_aliasing_witness :
  ({[ 0 := [(TFn (FConst 5), [], [])] ]} : heap (fn_t:=sample_fn)) !! 0 =
    Some [(TFn (FConst 5), [], [])] /\
  let '(h1, r1) := lazy_special {[ 0 := [(TFn (FConst 5), [], [])] ]} 0 "__add__" [PInt 1] [] in
  let '(h2, r2) := lazy_special h1 0 "__mul__" [PInt 2] [] in
  r1 = 0 /\ r2 = 0 /\
  await_ref sample_apply sample_getattr h2 0 =
    Some (queue_step sample_apply sample_getattr
            (queue_step sample_apply sample_getattr
               (lazy_await sample_apply sample_getattr (PLazy [(TFn (FConst 5), [], [])]))
               (TName "__add__", [PInt 1], []))
            (TName "__mul__", [PInt 2], [])).
Proof.
  assert (H : ({[ 0 := [(TFn (FConst 5), [], [])] ]} : heap (fn_t:=sample_fn)) !! 0 =
                Some [(TFn (FConst 5), [], [])]) by (vm_compute; reflexivity).
  split; [exact H|].
  exact (LazyHeapFacts.lazy_special_aliasing sample_apply sample_getattr _ 0 (FConst 5) [] [] []
           "__add__" [PInt 1] [] "__mul__" [PInt 2] [] H).
Defined.

Lemma process_action_plain_collections_witness :
  Forall (fun x => is_action_or_lazy x = false) [RInt 1; RStr "a"; RNone] /\
  process_action (RList [RInt 1; RStr "a"; RNone]) = RList [RInt 1; RStr "a"; RNone] /\
  process_action (RTuple [RInt 1; RStr "a"; RNone]) = RList [RInt 1; RStr "a"; RNone] /\
  process_action (RIter [RInt 1; RStr "a"; RNone]) = RList [RInt 1; RStr "a"; RNone] /\
  process_action (RAGen [RInt 1; RStr "a"; RNone]) = RList [RInt 1; RStr "a"; RNone].
Proof.
  assert (H : Forall (fun x => is_action_or_lazy x = false) [RInt 1; RStr "a"; RNone])
    by (repeat constructor).
  split; [exact H|]. exact (ResultsExt.process_action_plain_collections _ H).
Defined.

(** An item that adds the key ["seen"] and updates the base key ["total"]. *)
Lemma item_branch_discarded_item_ops_witness :
  let c : ctx Z := mkCtx {["total" := 0%Z]} None in
  let body := [CSet "seen" 1%Z; CSet "total" 3%Z] in
  let c' := fst (process_item_ctx {["item" := 5%Z]} body c) in
  existsb uses_dict_methods body = false /\
  (br c' = br c /\
   (forall k, ctx_contains c k = false ->
      ctx_contains c' k = false /\ ctx_get c' k = None) /\
   (forall k, is_Some (base c !! k) -> is_Some (base c' !! k)) /\
   (forall k, existsb (op_sets k) body = false -> base c' !! k = base c !! k)).
Proof.
  intros c body c'. split; [reflexivity|].
  apply (ContextProps.item_branch_discarded_item_ops {["item" := 5%Z]} body c). reflexivity.
Defined.



End Witnesses.
